(** * MARLEY: exit channels of the compound nucleus and the event record

    A shallow embedding of [marley/ExitChannel.hh] (the exit-channel class
    hierarchy) and of [src/Event.cc] (the event record and its ownership of
    heap-allocated particles), with the properties of both that the
    specification states.

    Conventions.
    - A C++ [double] is an IEEE-754 binary64 value: Rocq's primitive [float].
      Stored values are compared with Leibniz equality, so [nan] and the
      infinities are ordinary values that can be stored and read back.
    - A C++ [int] is a [Z]; the channels only store and copy such values.
    - A class is a record of its data members; a derived class holds its base
      as its first field.  Members declared [mutable] in the header are kept
      in the same record; a [const] member function returns the object with
      at most those members changed.
    - A constructor returns a [construction]: the object, or the error it
      throws. *)

From Stdlib Require Import ZArith List Bool Lia.
From Stdlib Require Import Floats.
From stdpp Require Import base option list gmap.

Local Open Scope Z_scope.

(** ** Numbers and the records of the header files that are included *)

Definition double : Type := float.

(** Modelled from the spec: the failure kinds of section 7 (marley/Error.hh is
    not part of the sources). *)
Inductive Error : Type :=
| InvalidWidth
| DensityViolation
| NumericalConvergenceFailure
| NoAccessibleChannel.

(** What evaluating a constructor call gives. *)
Inductive construction (A : Type) : Type :=
| Constructed (a : A)
| Throws (e : Error).

Arguments Constructed {A} a.
Arguments Throws {A} e.

(** Running a base-class constructor first, then the rest of the initialiser
    list. *)
Definition construct_then {A B : Type}
  (base : construction A) (k : A -> construction B) : construction B :=
  match base with
  | Constructed a => k a
  | Throws e => Throws e
  end.

(** Modelled from the spec: parity is +1 or -1 (marley/Parity.hh is not part
    of the sources). *)
Inductive Parity : Type :=
| ParityPlus
| ParityMinus.

(** Modelled from the spec: a particle as [Event::dump_hepevt_particle] reads
    it: PDG code, momentum, total energy and mass (marley/Particle.hh is not
    part of the sources). *)
Record Particle : Type := {
  pdg_code : Z;
  px : double;
  py : double;
  pz : double;
  total_energy : double;
  mass : double
}.

(** Modelled from the spec: a nuclear level exposes its excitation energy,
    spin and parity (marley/Level.hh is not part of the sources). *)
Record Level : Type := {
  energy : double;
  twoJ : Z;
  parity : Parity
}.

(** Modelled from the spec: a fragment exposes its PDG id, mass and intrinsic
    spin (marley/Fragment.hh is not part of the sources). *)
Record Fragment : Type := {
  get_pid : Z;
  get_mass : double;
  get_two_s : Z
}.

(** Modelled from the spec: an interpolant is a polynomial approximation over
    an interval (marley/ChebyshevInterpolatingFunction.hh is not part of the
    sources); only its presence in a channel matters below. *)
Record ChebyshevInterpolatingFunction : Type := {
  cheb_xmin : double;
  cheb_xmax : double;
  cheb_coefficients : list double
}.

(** Modelled from the spec: the state of the seedable random source
    (marley/Generator.hh is not part of the sources). *)
Record Generator : Type := {
  gen_state : Z
}.

(** The six reference parameters of [do_decay]: [Ex], [two_J] and [Pi] are
    read and written, the two particles are written, and the generator is
    advanced by the draws that are made. *)
Record decay_arguments : Type := {
  Ex : double;
  two_J : Z;
  Pi : Parity;
  emitted_particle : Particle;
  residual_nucleus : Particle;
  gen : Generator
}.

(** Modelled from the spec: a particle of a given kind and mass, at rest
    (marley/Particle.hh is not part of the sources). *)
Definition Particle_at_rest (pdg : Z) (m : double) : Particle :=
  {| pdg_code := pdg; px := 0%float; py := 0%float; pz := 0%float;
     total_energy := m; mass := m |}.

Module marley_utils.

(** Modelled from the spec: the photon code; 22 is the PDG number of the
    photon (marley/marley_utils.hh is not part of the sources). *)
Definition PHOTON : Z := 22.

End marley_utils.

(** ** class ExitChannel *)

Module ExitChannel.

Record t : Type := {
  width_ : double
}.

(** [ExitChannel(double width) : width_(width) {}] *)
Definition ctor (width : double) : construction t :=
  Constructed {| width_ := width |}.

(** [inline double width() const { return width_; }] *)
Definition width (self : t) : double := width_ self.

End ExitChannel.

(** ** class DiscreteExitChannel : public ExitChannel *)

Module DiscreteExitChannel.

(** [final_level_] is a reference to a level owned by the structure database;
    the record holds the level that the reference designates. *)
Record t : Type := {
  base : ExitChannel.t;
  final_level_ : Level;
  residue_ : Particle
}.

Definition ctor (width : double) (flev : Level) (residue : Particle)
  : construction t :=
  construct_then (ExitChannel.ctor width) (fun b =>
    Constructed {| base := b; final_level_ := flev; residue_ := residue |}).

Definition is_continuum (self : t) : bool := false.

Definition get_final_level (self : t) : Level := final_level_ self.

(** The overload of [get_final_level] that is not [const] returns a
    reference through which the caller can assign the level. *)
Definition assign_final_level (flev : Level) (self : t) : t :=
  {| base := base self; final_level_ := flev; residue_ := residue_ self |}.

End DiscreteExitChannel.

(** ** class FragmentDiscreteExitChannel : public DiscreteExitChannel *)

Module FragmentDiscreteExitChannel.

Record t : Type := {
  base : DiscreteExitChannel.t;
  fragment_ : Fragment
}.

Definition ctor (width : double) (flev : Level) (residue : Particle)
  (frag : Fragment) : construction t :=
  construct_then (DiscreteExitChannel.ctor width flev residue) (fun b =>
    Constructed {| base := b; fragment_ := frag |}).

Definition emits_fragment (self : t) : bool := true.

Definition get_fragment (self : t) : Fragment := fragment_ self.

Definition emitted_particle_pdg (self : t) : Z := get_pid (fragment_ self).

End FragmentDiscreteExitChannel.

(** ** class GammaDiscreteExitChannel : public DiscreteExitChannel *)

Module GammaDiscreteExitChannel.

Record t : Type := {
  base : DiscreteExitChannel.t
}.

Definition ctor (width : double) (flev : Level) (residue : Particle)
  : construction t :=
  construct_then (DiscreteExitChannel.ctor width flev residue) (fun b =>
    Constructed {| base := b |}).

Definition emits_fragment (self : t) : bool := false.

Definition emitted_particle_pdg (self : t) : Z := marley_utils.PHOTON.

(** Modelled from the spec: the body of [do_decay], which the header only
    declares (section 4.2: the excitation energy, spin and parity are
    overwritten with the values of the final level; the emitted particle is
    a photon and the residue is the prepared one).  The generator parameter
    is unnamed and marked unused in the declaration, so no draw is made and
    the momenta of the two products are left to the caller. *)
Definition do_decay (self : t) (args : decay_arguments) : decay_arguments :=
  let flev := DiscreteExitChannel.final_level_ (base self) in
  {| Ex := energy flev;
     two_J := twoJ flev;
     Pi := parity flev;
     emitted_particle :=
       Particle_at_rest (emitted_particle_pdg self) 0%float;
     residual_nucleus := DiscreteExitChannel.residue_ (base self);
     gen := gen args |}.

End GammaDiscreteExitChannel.

(** ** class ContinuumExitChannel : public ExitChannel *)

Module ContinuumExitChannel.

(** [struct SpinParityWidth] *)
Module SpinParityWidth.

Record t : Type := {
  twoJf : Z;
  Pf : Parity;
  width : double
}.

Definition ctor (twoJ : Z) (p : Parity) (w : double) : t :=
  {| twoJf := twoJ; Pf := p; width := w |}.

End SpinParityWidth.

(** [jpi_widths_table_] and [skip_jpi_sampling_] are [mutable]; the table is
    default-constructed (empty) and the flag has the initialiser [false]. *)
Record t : Type := {
  base : ExitChannel.t;
  Emin_ : double;
  Emax_ : double;
  gs_residue_ : Particle;
  jpi_widths_table_ : list SpinParityWidth.t;
  skip_jpi_sampling_ : bool
}.

Definition ctor (width Emin Emax : double) (gs_residue : Particle)
  : construction t :=
  construct_then (ExitChannel.ctor width) (fun b =>
    Constructed {| base := b; Emin_ := Emin; Emax_ := Emax;
                   gs_residue_ := gs_residue;
                   jpi_widths_table_ := [];
                   skip_jpi_sampling_ := false |}).

Definition is_continuum (self : t) : bool := true.

(** [inline void set_skip_jpi_sampling(bool skip_it) const
      { skip_jpi_sampling_ = skip_it; }] *)
Definition set_skip_jpi_sampling (skip_it : bool) (self : t) : t :=
  {| base := base self; Emin_ := Emin_ self; Emax_ := Emax_ self;
     gs_residue_ := gs_residue_ self;
     jpi_widths_table_ := jpi_widths_table_ self;
     skip_jpi_sampling_ := skip_it |}.

(** What a [const] member function can do to the members of this class: give
    the two [mutable] members new contents. *)
Definition write_mutable (table : list SpinParityWidth.t) (skip : bool)
  (self : t) : t :=
  {| base := base self; Emin_ := Emin_ self; Emax_ := Emax_ self;
     gs_residue_ := gs_residue_ self;
     jpi_widths_table_ := table;
     skip_jpi_sampling_ := skip |}.

End ContinuumExitChannel.

(** ** class FragmentContinuumExitChannel : public ContinuumExitChannel *)

Module FragmentContinuumExitChannel.

(** [Epdf_] takes a reference that it loads with the fragment kinetic energy
    and the excitation energy, and returns the density: here it maps the
    excitation energy to the density and the kinetic energy.  [Ecdf_] is a
    [unique_ptr], null until it is initialised.  [total_KE_CM_frame_] has no
    initialiser: [None] is the indeterminate value. *)
Record t : Type := {
  base : ContinuumExitChannel.t;
  Epdf_ : double -> double * double;
  fragment_ : Fragment;
  Ecdf_ : option ChebyshevInterpolatingFunction;
  total_KE_CM_frame_ : option double
}.

Definition ctor (width Emin Emax : double)
  (Epdf : double -> double * double) (frag : Fragment)
  (gs_residue : Particle) : construction t :=
  construct_then (ContinuumExitChannel.ctor width Emin Emax gs_residue)
    (fun b =>
       Constructed {| base := b; Epdf_ := Epdf; fragment_ := frag;
                      Ecdf_ := None; total_KE_CM_frame_ := None |}).

Definition emits_fragment (self : t) : bool := true.

Definition get_fragment (self : t) : Fragment := fragment_ self.

Definition emitted_particle_pdg (self : t) : Z := get_pid (fragment_ self).

(** The member [set_skip_jpi_sampling] that the class inherits. *)
Definition set_skip_jpi_sampling (skip_it : bool) (self : t) : t :=
  {| base := ContinuumExitChannel.set_skip_jpi_sampling skip_it (base self);
     Epdf_ := Epdf_ self; fragment_ := fragment_ self;
     Ecdf_ := Ecdf_ self; total_KE_CM_frame_ := total_KE_CM_frame_ self |}.

(** A [const] member function can change [Ecdf_], [total_KE_CM_frame_] and
    the [mutable] members of the base, nothing else. *)
Definition write_mutable (table : list ContinuumExitChannel.SpinParityWidth.t)
  (skip : bool) (Ecdf : option ChebyshevInterpolatingFunction)
  (ke : option double) (self : t) : t :=
  {| base := ContinuumExitChannel.write_mutable table skip (base self);
     Epdf_ := Epdf_ self; fragment_ := fragment_ self;
     Ecdf_ := Ecdf; total_KE_CM_frame_ := ke |}.

End FragmentContinuumExitChannel.

(** ** class GammaContinuumExitChannel : public ContinuumExitChannel *)

Module GammaContinuumExitChannel.

Record t : Type := {
  base : ContinuumExitChannel.t;
  Epdf_ : double -> double;
  Ecdf_ : option ChebyshevInterpolatingFunction
}.

Definition ctor (width Emin Emax : double) (Epdf : double -> double)
  (gs_residue : Particle) : construction t :=
  construct_then (ContinuumExitChannel.ctor width Emin Emax gs_residue)
    (fun b => Constructed {| base := b; Epdf_ := Epdf; Ecdf_ := None |}).

Definition emits_fragment (self : t) : bool := false.

Definition emitted_particle_pdg (self : t) : Z := marley_utils.PHOTON.

(** The member [set_skip_jpi_sampling] that the class inherits. *)
Definition set_skip_jpi_sampling (skip_it : bool) (self : t) : t :=
  {| base := ContinuumExitChannel.set_skip_jpi_sampling skip_it (base self);
     Epdf_ := Epdf_ self; Ecdf_ := Ecdf_ self |}.

(** A [const] member function can change [Ecdf_] and the [mutable] members
    of the base, nothing else. *)
Definition write_mutable (table : list ContinuumExitChannel.SpinParityWidth.t)
  (skip : bool) (Ecdf : option ChebyshevInterpolatingFunction)
  (self : t) : t :=
  {| base := ContinuumExitChannel.write_mutable table skip (base self);
     Epdf_ := Epdf_ self; Ecdf_ := Ecdf |}.

End GammaContinuumExitChannel.

(** ** The dynamic type behind an [ExitChannel] pointer *)

Inductive Channel : Type :=
| FragmentDiscrete (c : FragmentDiscreteExitChannel.t)
| GammaDiscrete (c : GammaDiscreteExitChannel.t)
| FragmentContinuum (c : FragmentContinuumExitChannel.t)
| GammaContinuum (c : GammaContinuumExitChannel.t).

(** The [ExitChannel] base subobject of a channel. *)
Definition as_ExitChannel (ch : Channel) : ExitChannel.t :=
  match ch with
  | FragmentDiscrete c =>
      DiscreteExitChannel.base (FragmentDiscreteExitChannel.base c)
  | GammaDiscrete c =>
      DiscreteExitChannel.base (GammaDiscreteExitChannel.base c)
  | FragmentContinuum c =>
      ContinuumExitChannel.base (FragmentContinuumExitChannel.base c)
  | GammaContinuum c =>
      ContinuumExitChannel.base (GammaContinuumExitChannel.base c)
  end.

(** [width()] is not virtual: it is the base-class member on every channel. *)
Definition width (ch : Channel) : double :=
  ExitChannel.width (as_ExitChannel ch).

(** The virtual members, dispatched on the dynamic type. *)
Definition is_continuum (ch : Channel) : bool :=
  match ch with
  | FragmentDiscrete c =>
      DiscreteExitChannel.is_continuum (FragmentDiscreteExitChannel.base c)
  | GammaDiscrete c =>
      DiscreteExitChannel.is_continuum (GammaDiscreteExitChannel.base c)
  | FragmentContinuum c =>
      ContinuumExitChannel.is_continuum (FragmentContinuumExitChannel.base c)
  | GammaContinuum c =>
      ContinuumExitChannel.is_continuum (GammaContinuumExitChannel.base c)
  end.

Definition emits_fragment (ch : Channel) : bool :=
  match ch with
  | FragmentDiscrete c => FragmentDiscreteExitChannel.emits_fragment c
  | GammaDiscrete c => GammaDiscreteExitChannel.emits_fragment c
  | FragmentContinuum c => FragmentContinuumExitChannel.emits_fragment c
  | GammaContinuum c => GammaContinuumExitChannel.emits_fragment c
  end.

Definition emitted_particle_pdg (ch : Channel) : Z :=
  match ch with
  | FragmentDiscrete c => FragmentDiscreteExitChannel.emitted_particle_pdg c
  | GammaDiscrete c => GammaDiscreteExitChannel.emitted_particle_pdg c
  | FragmentContinuum c => FragmentContinuumExitChannel.emitted_particle_pdg c
  | GammaContinuum c => GammaContinuumExitChannel.emitted_particle_pdg c
  end.

(** A constructor call of one of the four concrete classes, with its
    arguments. *)
Inductive new_expression : Type :=
| new_FragmentDiscreteExitChannel
    (width : double) (flev : Level) (residue : Particle) (frag : Fragment)
| new_GammaDiscreteExitChannel
    (width : double) (flev : Level) (residue : Particle)
| new_FragmentContinuumExitChannel
    (width Emin Emax : double) (Epdf : double -> double * double)
    (frag : Fragment) (gs_residue : Particle)
| new_GammaContinuumExitChannel
    (width Emin Emax : double) (Epdf : double -> double)
    (gs_residue : Particle).

Definition width_argument (e : new_expression) : double :=
  match e with
  | new_FragmentDiscreteExitChannel w _ _ _ => w
  | new_GammaDiscreteExitChannel w _ _ => w
  | new_FragmentContinuumExitChannel w _ _ _ _ _ => w
  | new_GammaContinuumExitChannel w _ _ _ _ => w
  end.

Definition evaluate_new (e : new_expression) : construction Channel :=
  match e with
  | new_FragmentDiscreteExitChannel w flev residue frag =>
      construct_then (FragmentDiscreteExitChannel.ctor w flev residue frag)
        (fun c => Constructed (FragmentDiscrete c))
  | new_GammaDiscreteExitChannel w flev residue =>
      construct_then (GammaDiscreteExitChannel.ctor w flev residue)
        (fun c => Constructed (GammaDiscrete c))
  | new_FragmentContinuumExitChannel w Emin Emax Epdf frag gs =>
      construct_then
        (FragmentContinuumExitChannel.ctor w Emin Emax Epdf frag gs)
        (fun c => Constructed (FragmentContinuum c))
  | new_GammaContinuumExitChannel w Emin Emax Epdf gs =>
      construct_then (GammaContinuumExitChannel.ctor w Emin Emax Epdf gs)
        (fun c => Constructed (GammaContinuum c))
  end.

(** *** What can happen to a channel during its lifetime

    Every member function that the header declares is [const], but for one
    overload of [get_final_level].  The accessors change nothing;
    [set_skip_jpi_sampling] assigns the [mutable] flag; the reference that
    the overload of [get_final_level] returns lets the caller assign the
    level; [do_decay], [sample_spin_parity] and [store_gamma_jpi_width] are
    defined in a file that is not part of the sources, and as [const] members
    they can assign the [mutable] members only. *)

Record mutable_members : Type := {
  new_table : list ContinuumExitChannel.SpinParityWidth.t;
  new_skip : bool;
  new_Ecdf : option ChebyshevInterpolatingFunction;
  new_total_KE : option double
}.

Inductive member_call : Type :=
| call_accessor
| call_set_skip_jpi_sampling (skip_it : bool)
| call_get_final_level_and_assign (flev : Level)
| call_const_member (writes : mutable_members).

Definition after_call (ch : Channel) (call : member_call) : Channel :=
  match call, ch with
  | call_accessor, _ => ch
  | call_set_skip_jpi_sampling b, FragmentContinuum c =>
      FragmentContinuum (FragmentContinuumExitChannel.set_skip_jpi_sampling b c)
  | call_set_skip_jpi_sampling b, GammaContinuum c =>
      GammaContinuum (GammaContinuumExitChannel.set_skip_jpi_sampling b c)
  | call_set_skip_jpi_sampling _, FragmentDiscrete _ => ch
  | call_set_skip_jpi_sampling _, GammaDiscrete _ => ch
  | call_get_final_level_and_assign flev, FragmentDiscrete c =>
      FragmentDiscrete
        {| FragmentDiscreteExitChannel.base :=
             DiscreteExitChannel.assign_final_level flev
               (FragmentDiscreteExitChannel.base c);
           FragmentDiscreteExitChannel.fragment_ :=
             FragmentDiscreteExitChannel.fragment_ c |}
  | call_get_final_level_and_assign flev, GammaDiscrete c =>
      GammaDiscrete
        {| GammaDiscreteExitChannel.base :=
             DiscreteExitChannel.assign_final_level flev
               (GammaDiscreteExitChannel.base c) |}
  | call_get_final_level_and_assign _, FragmentContinuum _ => ch
  | call_get_final_level_and_assign _, GammaContinuum _ => ch
  | call_const_member w, FragmentContinuum c =>
      FragmentContinuum
        (FragmentContinuumExitChannel.write_mutable
           (new_table w) (new_skip w) (new_Ecdf w) (new_total_KE w) c)
  | call_const_member w, GammaContinuum c =>
      GammaContinuum
        (GammaContinuumExitChannel.write_mutable
           (new_table w) (new_skip w) (new_Ecdf w) c)
  | call_const_member _, FragmentDiscrete _ => ch
  | call_const_member _, GammaDiscrete _ => ch
  end.

Definition after_calls (ch : Channel) (calls : list member_call) : Channel :=
  fold_left after_call calls ch.

(** ** Widths that the specification calls invalid *)

(** A width that the specification calls invalid: negative, or not a finite
    number. *)
Definition negative_or_non_finite (w : double) : bool :=
  (w <? 0)%float || negb (is_finite w).

(** ** Sample data *)

Definition a_level : Level :=
  {| energy := 1%float; twoJ := 4; parity := ParityPlus |}.

Definition a_residue : Particle := Particle_at_rest 1000180400 37224.75%float.

Definition a_fragment : Fragment :=
  {| get_pid := 2112; get_mass := 939.5%float; get_two_s := 1 |}.

Definition minus_one : double := (-1)%float.

(** * class Event (src/Event.cc)

    An event owns the particles that its two vectors point to: they are
    allocated with [new] and released with [delete].  Events and particles
    live in a memory, so that two references can designate the same event
    and two pointers the same particle. *)

Module Event.

Definition address : Type := positive.

(** A [marley::Particle*]: null, or the address of a particle. *)
Definition Particle_ptr : Type := option address.

Definition nullptr : Particle_ptr := None.

(** The data members of [marley::Event]. *)
Record t : Type := {
  initial_particles_ : list Particle_ptr;
  final_particles_ : list Particle_ptr;
  Ex_ : double
}.

Record memory : Type := {
  particles : gmap address Particle;
  events : gmap address t
}.

(** The memory with the event at [this] replaced, and with another heap of
    particles. *)
Definition put_event (this : address) (ev : t) (m : memory) : memory :=
  {| particles := particles m; events := <[this := ev]> (events m) |}.

Definition put_particles (heap : gmap address Particle) (m : memory)
  : memory :=
  {| particles := heap; events := events m |}.

(** A statement runs in a memory and gives a result and the memory it leaves;
    it gives nothing where the C++ program has undefined behaviour. *)
Definition M (R : Type) : Type := memory -> option (R * memory).

#[global] Instance M_ret : MRet M := fun R r m => Some (r, m).

#[global] Instance M_bind : MBind M := fun R S k c m =>
  match c m with
  | Some (r, m') => k r m'
  | None => None
  end.

Fixpoint for_each {X : Type} (body : X -> M unit) (l : list X) : M unit :=
  match l with
  | [] => mret tt
  | x :: l' => body x;; for_each body l'
  end.

(** *** Particles on the heap *)

(** [new marley::Particle(p)] *)
Definition new_Particle (p : Particle) : M Particle_ptr :=
  fun m =>
    let a := fresh (dom (particles m)) in
    Some (Some a, put_particles (<[a := p]> (particles m)) m).

(** [delete p]: nothing for a null pointer; undefined for a pointer to no
    live particle. *)
Definition delete_Particle (p : Particle_ptr) : M unit :=
  fun m =>
    match p with
    | None => Some (tt, m)
    | Some a =>
        match particles m !! a with
        | Some _ =>
            Some (tt, put_particles (delete a (particles m)) m)
        | None => None
        end
    end.

(** The particle that a pointer designates, if any. *)
Definition pointee (m : memory) (p : Particle_ptr) : option Particle :=
  match p with
  | Some a => particles m !! a
  | None => None
  end.

(** *** The members of the event at an address *)

Definition load (this : address) : M t :=
  fun m =>
    match events m !! this with
    | Some ev => Some (ev, m)
    | None => None
    end.

Definition store (this : address) (ev : t) : M unit :=
  fun m =>
    match events m !! this with
    | Some _ => Some (tt, put_event this ev m)
    | None => None
    end.

(** The start of the lifetime of an event, in storage that holds none. *)
Definition construct (this : address) (ev : t) : M unit :=
  fun m =>
    match events m !! this with
    | Some _ => None
    | None => Some (tt, put_event this ev m)
    end.

(** The end of the lifetime of the event. *)
Definition destroy (this : address) : M unit :=
  fun m =>
    match events m !! this with
    | Some _ =>
        Some (tt, {| particles := particles m;
                     events := delete this (events m) |})
    | None => None
    end.

Inductive particle_vector : Type :=
| initial_particles
| final_particles.

Definition get_vector (v : particle_vector) (ev : t) : list Particle_ptr :=
  match v with
  | initial_particles => initial_particles_ ev
  | final_particles => final_particles_ ev
  end.

Definition set_vector (v : particle_vector) (l : list Particle_ptr) (ev : t)
  : t :=
  match v with
  | initial_particles =>
      {| initial_particles_ := l;
         final_particles_ := final_particles_ ev; Ex_ := Ex_ ev |}
  | final_particles =>
      {| initial_particles_ := initial_particles_ ev;
         final_particles_ := l; Ex_ := Ex_ ev |}
  end.

Definition set_Ex (x : double) (ev : t) : t :=
  {| initial_particles_ := initial_particles_ ev;
     final_particles_ := final_particles_ ev; Ex_ := x |}.

Definition read_Ex (this : address) : M double :=
  ev ← load this; mret (Ex_ ev).

Definition write_Ex (this : address) (x : double) : M unit :=
  ev ← load this; store this (set_Ex x ev).

Definition elements (v : particle_vector) (this : address)
  : M (list Particle_ptr) :=
  ev ← load this; mret (get_vector v ev).

(** [size()] *)
Definition size (v : particle_vector) (this : address) : M nat :=
  ev ← load this; mret (length (get_vector v ev)).

(** [resize(n)]: the first [n] elements, then null pointers up to [n]. *)
Definition resize (v : particle_vector) (this : address) (n : nat) : M unit :=
  ev ← load this;
  let l := get_vector v ev in
  store this (set_vector v (take n l ++ replicate (n - length l) nullptr) ev).

(** [clear()] *)
Definition clear (v : particle_vector) (this : address) : M unit :=
  ev ← load this; store this (set_vector v [] ev).

(** [push_back(p)] *)
Definition push_back (v : particle_vector) (this : address)
  (p : Particle_ptr) : M unit :=
  ev ← load this;
  store this (set_vector v (get_vector v ev ++ [p]) ev).

(** Reading [operator[](i)]: undefined past the end. *)
Definition read_at (v : particle_vector) (this : address) (i : nat)
  : M Particle_ptr :=
  fun m =>
    match events m !! this with
    | Some ev =>
        match get_vector v ev !! i with
        | Some p => Some (p, m)
        | None => None
        end
    | None => None
    end.

(** Assigning to [operator[](i)]: undefined past the end. *)
Definition write_at (v : particle_vector) (this : address) (i : nat)
  (p : Particle_ptr) : M unit :=
  ev ← load this;
  if decide (i < length (get_vector v ev))%nat
  then store this (set_vector v (<[i := p]> (get_vector v ev)) ev)
  else fun _ => None.

(** *** The member functions *)

(** The default-constructed [marley::Particle()]. *)
Definition Particle_default : Particle := Particle_at_rest 0 0%float.

(** [Event::Event(double Ex)] *)
Definition ctor (this : address) (Ex : double) : M unit :=
  a ← new_Particle Particle_default;
  b ← new_Particle Particle_default;
  c ← new_Particle Particle_default;
  d ← new_Particle Particle_default;
  construct this {| initial_particles_ := [a; b];
                    final_particles_ := [c; d]; Ex_ := Ex |}.

(** [Event::Event(const Particle& a, const Particle& b, const Particle& c,
      const Particle& d, double Ex)] *)
Definition ctor_2_to_2 (this : address) (a b c d : Particle) (Ex : double)
  : M unit :=
  pa ← new_Particle a;
  pb ← new_Particle b;
  pc ← new_Particle c;
  pd ← new_Particle d;
  construct this {| initial_particles_ := [pa; pb];
                    final_particles_ := [pc; pd]; Ex_ := Ex |}.

(** [Event::~Event()] *)
Definition dtor (this : address) : M unit :=
  ps ← elements initial_particles this;
  for_each delete_Particle ps;;
  ps ← elements final_particles this;
  for_each delete_Particle ps;;
  clear initial_particles this;;
  clear final_particles this;;
  destroy this.

(** The loop [for (size_t i = 0; i < other.v.size(); ++i)
      v[i] = other.v[i];].  Its body assigns elements only, so the bound is
    the size that [other.v] has when the loop starts. *)
Definition copy_pointers (v : particle_vector) (this other : address)
  : M unit :=
  n ← size v other;
  for_each (fun i => p ← read_at v other i; write_at v this i p)
    (seq 0 n).

(** [Event::Event(marley::Event&& other_event)] *)
Definition move_ctor (this other_event : address) : M unit :=
  n_initial ← size initial_particles other_event;
  n_final ← size final_particles other_event;
  Ex ← read_Ex other_event;
  construct this {| initial_particles_ := replicate n_initial nullptr;
                    final_particles_ := replicate n_final nullptr;
                    Ex_ := Ex |};;
  write_Ex other_event 0%float;;
  copy_pointers initial_particles this other_event;;
  copy_pointers final_particles this other_event;;
  clear initial_particles other_event;;
  clear final_particles other_event.

(** [Event& Event::operator=(marley::Event&& other_event)] *)
Definition move_assign (this other_event : address) : M unit :=
  Ex ← read_Ex other_event;
  write_Ex this Ex;;
  write_Ex other_event 0%float;;
  ps ← elements initial_particles this;
  for_each delete_Particle ps;;
  ps ← elements final_particles this;
  for_each delete_Particle ps;;
  n_initial ← size initial_particles other_event;
  resize initial_particles this n_initial;;
  n_final ← size final_particles other_event;
  resize final_particles this n_final;;
  copy_pointers initial_particles this other_event;;
  copy_pointers final_particles this other_event;;
  clear initial_particles other_event;;
  clear final_particles other_event.

(** [Event::add_initial_particle] and [Event::add_final_particle] *)
Definition add_particle (v : particle_vector) (this : address) (p : Particle)
  : M unit :=
  q ← new_Particle p; push_back v this q.

Definition add_initial_particle : address -> Particle -> M unit :=
  add_particle initial_particles.

Definition add_final_particle : address -> Particle -> M unit :=
  add_particle final_particles.

(** *** What the properties speak of *)

(** The particles that the event at [this] holds: the pointee of each
    pointer of its two vectors. *)
Definition particle_values (m : memory) (this : address)
  : option (list (option Particle) * list (option Particle)) :=
  match events m !! this with
  | Some ev =>
      Some (pointee m <$> initial_particles_ ev,
            pointee m <$> final_particles_ ev)
  | None => None
  end.

(** The pointers of an event, those of both vectors. *)
Definition pointers (ev : t) : list Particle_ptr :=
  initial_particles_ ev ++ final_particles_ ev.

(** The addresses among a list of pointers. *)
Definition addresses (ps : list Particle_ptr) : list address :=
  omap id ps.

(** An event owns its particles: its non-null pointers designate live
    particles, each of them once. *)
Definition owns (m : memory) (ev : t) : Prop :=
  NoDup (addresses (pointers ev)) /\
  forall a : address,
    a ∈ addresses (pointers ev) -> is_Some (particles m !! a).

(** The heap after [delete] of each pointer of a list. *)
Definition released (ps : list Particle_ptr)
  (heap : gmap address Particle) : gmap address Particle :=
  fold_left (fun h p => match p with
                        | Some a => delete a h
                        | None => h
                        end) ps heap.

(** The two ways of moving from an event. *)
Inductive move_kind : Type :=
| move_construction
| move_assignment.

Definition move (k : move_kind) (this other_event : address) : M unit :=
  match k with
  | move_construction => move_ctor this other_event
  | move_assignment => move_assign this other_event
  end.

(** What the caller of a move provides: a live source; for a construction,
    storage that holds no event; for an assignment, a live destination that
    is another object than the source, owns its particles and shares none
    with the source. *)
Definition movable (k : move_kind) (this other_event : address) (m : memory)
  : Prop :=
  match k with
  | move_construction =>
      is_Some (events m !! other_event) /\ events m !! this = None
  | move_assignment =>
      this <> other_event /\
      exists dst src : t,
        events m !! this = Some dst /\
        events m !! other_event = Some src /\
        owns m dst /\
        forall a : address,
          a ∈ addresses (pointers src) -> a ∉ addresses (pointers dst)
  end.

(** The state that a moved-from event is left in. *)
Definition moved_from : t :=
  {| initial_particles_ := []; final_particles_ := []; Ex_ := 0%float |}.

End Event.

(** The program [Event e(a, b, c, d, 3.); Event f(7.);] run in the empty
    memory, with [e] at address 1 and [f] at address 2. *)
Definition empty_memory : Event.memory :=
  {| Event.particles := ∅; Event.events := ∅ |}.

Definition two_events_program : Event.M unit :=
  Event.ctor_2_to_2 1%positive
    (Particle_at_rest 12 0%float)
    (Particle_at_rest 1000180400 37224.75%float)
    (Particle_at_rest 11 0.5%float)
    (Particle_at_rest 1000190400 37226.25%float) 3%float;;
  Event.ctor 2%positive 7%float.

Definition two_events : option (unit * Event.memory) :=
  two_events_program empty_memory.

Definition memory_after (run : option (unit * Event.memory)) : Event.memory :=
  match run with
  | Some (_, m) => m
  | None => empty_memory
  end.

(** * class Event: the other member functions of src/Event.cc *)

From Stdlib Require Strings.Ascii Strings.String.

Module Event_members.

Import Strings.Ascii Strings.String.
Import Event.

(** The local constants of the file. *)
Definition PROJECTILE_INDEX : nat := 0.
Definition TARGET_INDEX : nat := 1.
Definition EJECTILE_INDEX : nat := 0.
Definition RESIDUE_INDEX : nat := 1.

(** [*p]: the particle that [p] points to; undefined for a null pointer and
    for a pointer to no live particle. *)
Definition deref_Particle (p : Particle_ptr) : M Particle :=
  fun m =>
    match pointee m p with
    | Some x => Some (x, m)
    | None => None
    end.

(** The loop of the copy constructor and of the copy assignment: for each
    index [i] below [other.v.size()], [v[i]] is assigned a new particle that
    is a copy of the one that [other.v[i]] points to. *)
Definition copy_particles (v : particle_vector) (this other : address)
  : M unit :=
  n ← size v other;
  for_each (fun i => p ← read_at v other i;
                     x ← deref_Particle p;
                     q ← new_Particle x;
                     write_at v this i q)
    (seq 0 n).

(** [Event::Event(const marley::Event& other_event)] *)
Definition copy_ctor (this other_event : address) : M unit :=
  n_initial ← size initial_particles other_event;
  n_final ← size final_particles other_event;
  Ex ← read_Ex other_event;
  construct this {| initial_particles_ := replicate n_initial nullptr;
                    final_particles_ := replicate n_final nullptr;
                    Ex_ := Ex |};;
  copy_particles initial_particles this other_event;;
  copy_particles final_particles this other_event.

(** [Event& Event::operator=(const marley::Event& other_event)] *)
Definition copy_assign (this other_event : address) : M unit :=
  Ex ← read_Ex other_event;
  write_Ex this Ex;;
  ps ← elements initial_particles this;
  for_each delete_Particle ps;;
  ps ← elements final_particles this;
  for_each delete_Particle ps;;
  n_initial ← size initial_particles other_event;
  resize initial_particles this n_initial;;
  n_final ← size final_particles other_event;
  resize final_particles this n_final;;
  copy_particles initial_particles this other_event;;
  copy_particles final_particles this other_event.

(** What a call that can throw gives. *)
Inductive exception : Type :=
| out_of_range.

Inductive outcome (A : Type) : Type :=
| returned (a : A)
| thrown (e : exception).

Arguments returned {A} a.
Arguments thrown {A} e.

(** [v.at(i)]: the element, or [std::out_of_range] past the end. *)
Definition at_ (v : particle_vector) (this : address) (i : nat)
  : M (outcome Particle_ptr) :=
  ev ← load this;
  mret (match get_vector v ev !! i with
        | Some p => returned p
        | None => thrown out_of_range
        end).

(** [*v.at(i)], read. *)
Definition particle_at (v : particle_vector) (this : address) (i : nat)
  : M (outcome Particle) :=
  r ← at_ v this i;
  match r with
  | returned p => x ← deref_Particle p; mret (returned x)
  | thrown e => mret (thrown e)
  end.

(** [Event::projectile()], [target()], [ejectile()] and [residue()], read. *)
Definition projectile (this : address) : M (outcome Particle) :=
  particle_at initial_particles this PROJECTILE_INDEX.

Definition target (this : address) : M (outcome Particle) :=
  particle_at initial_particles this TARGET_INDEX.

Definition ejectile (this : address) : M (outcome Particle) :=
  particle_at final_particles this EJECTILE_INDEX.

Definition residue (this : address) : M (outcome Particle) :=
  particle_at final_particles this RESIDUE_INDEX.

(** [*p = x]: undefined for a null pointer and for a pointer to no live
    particle. *)
Definition assign_Particle (p : Particle_ptr) (x : Particle) : M unit :=
  fun m =>
    match p with
    | Some a =>
        match particles m !! a with
        | Some _ => Some (tt, put_particles (<[a := x]> (particles m)) m)
        | None => None
        end
    | None => None
    end.

(** An assignment through the reference that the overload of an accessor
    that is not [const] returns, as in [event.residue() = x]. *)
Definition assign_particle_at (v : particle_vector) (this : address)
  (i : nat) (x : Particle) : M (outcome unit) :=
  r ← at_ v this i;
  match r with
  | returned p => assign_Particle p x;; mret (returned tt)
  | thrown e => mret (thrown e)
  end.

(** *** Output

    What is inserted in a [std::ostream], one item for each [<<].  The text
    that a number is rendered as is left to the stream. *)
Inductive token : Type :=
| put_text (s : string)
| put_char (c : ascii)
| put_int (z : Z)
| put_size (n : nat)
| put_double (x : double)
| put_Particle (p : Particle)
| put_setprecision (digits : Z)
| put_scientific.

Definition newline : ascii := "010"%char.

Definition space : ascii := " "%char.

(** What a function has inserted when it returns or throws. *)
Record insertion : Type := {
  written : list token;
  raised : option exception
}.

(** The particles that the pointers of a list point to, in order. *)
Fixpoint deref_each (ps : list Particle_ptr) : M (list Particle) :=
  match ps with
  | [] => mret []
  | p :: ps' => x ← deref_Particle p; xs ← deref_each ps'; mret (x :: xs)
  end.

(** [void Event::print(std::ostream& out) const] *)
Definition print (this : address) : M insertion :=
  ps ← elements initial_particles this;
  if decide (ps = []) then mret {| written := []; raised := None |}
  else
    r ← particle_at initial_particles this PROJECTILE_INDEX;
    match r with
    | thrown e => mret {| written := []; raised := Some e |}
    | returned x =>
        fs ← elements final_particles this;
        ys ← deref_each fs;
        mret {| written :=
                  [put_Particle x; put_char newline]
                  ++ List.concat (map (fun y => [put_Particle y; put_char newline])
                               ys);
                raised := None |}
    end.

(** The text that [dump_hepevt_particle] begins a record with. *)
Definition status_text (track : bool) : string :=
  if track then "1 "%string else "0 "%string.

(** [void Event::dump_hepevt_particle(const marley::Particle& p,
      std::ostream& os, bool track)] *)
Definition dump_hepevt_particle (p : Particle) (track : bool) : list token :=
  [put_text (status_text track);
   put_int (pdg_code p);
   put_text " 0 0 0 0 "%string;
   put_double (px p / 1000)%float;
   put_char space;
   put_double (py p / 1000)%float;
   put_char space;
   put_double (pz p / 1000)%float;
   put_char space;
   put_double (total_energy p / 1000)%float;
   put_char space;
   put_double (mass p / 1000)%float;
   put_text " 0. 0. 0. 0."%string;
   put_char newline].

(** [void Event::write_hepevt(size_t event_num, std::ostream& out)] *)
Definition write_hepevt (event_num : nat) (this : address) : M insertion :=
  n_final ← size final_particles this;
  let header := [put_setprecision 16; put_scientific;
                 put_size event_num; put_char space;
                 put_size (n_final + 1); put_char newline] in
  r ← particle_at initial_particles this PROJECTILE_INDEX;
  match r with
  | thrown e => mret {| written := header; raised := Some e |}
  | returned x =>
      fs ← elements final_particles this;
      ys ← deref_each fs;
      mret {| written :=
                header ++ dump_hepevt_particle x false
                ++ List.concat (map (fun y => dump_hepevt_particle y true) ys);
              raised := None |}
  end.

(** The number of line ends among the items inserted. *)
Definition is_newline (tok : token) : bool :=
  match tok with
  | put_char c => bool_decide (c = newline)
  | _ => false
  end.

Definition lines (toks : list token) : nat :=
  List.length (List.filter is_newline toks).

(** The number of particle records that begin with the status text [s]. *)
Definition has_status (s : string) (tok : token) : bool :=
  match tok with
  | put_text s' => bool_decide (s' = s)
  | _ => false
  end.

Definition records (s : string) (toks : list token) : nat :=
  List.length (List.filter (has_status s) toks).

(** *** The operations on events, and the state they keep *)

Inductive operation : Type :=
| op_ctor (this : address) (Ex : double)
| op_ctor_2_to_2 (this : address) (a b c d : Particle) (Ex : double)
| op_copy_ctor (this other_event : address)
| op_move_ctor (this other_event : address)
| op_copy_assign (this other_event : address)
| op_move_assign (this other_event : address)
| op_dtor (this : address)
| op_add_initial_particle (this : address) (p : Particle)
| op_add_final_particle (this : address) (p : Particle).

Definition run (op : operation) : M unit :=
  match op with
  | op_ctor this Ex => ctor this Ex
  | op_ctor_2_to_2 this a b c d Ex => ctor_2_to_2 this a b c d Ex
  | op_copy_ctor this other => copy_ctor this other
  | op_move_ctor this other => move_ctor this other
  | op_copy_assign this other => copy_assign this other
  | op_move_assign this other => move_assign this other
  | op_dtor this => dtor this
  | op_add_initial_particle this p => add_initial_particle this p
  | op_add_final_particle this p => add_final_particle this p
  end.

(** Running a list of operations, one after the other. *)
Fixpoint run_all (ops : list operation) : M unit :=
  match ops with
  | [] => mret tt
  | op :: ops' => run op;; run_all ops'
  end.

(** Every pointer of the event is the address of a live particle. *)
Definition readable (m : memory) (ev : t) : Prop :=
  forall p : Particle_ptr, p ∈ pointers ev -> is_Some (pointee m p).

(** The state of the memory that the operations keep: every event owns its
    particles and holds no null pointer, two events share no particle, and
    every live particle belongs to an event. *)
Record well_formed (m : memory) : Prop := {
  wf_owns :
    forall (a : address) (ev : t), events m !! a = Some ev -> owns m ev;
  wf_no_null :
    forall (a : address) (ev : t),
      events m !! a = Some ev -> None ∉ pointers ev;
  wf_apart :
    forall (a b : address) (ev1 ev2 : t) (x : address),
      a <> b -> events m !! a = Some ev1 -> events m !! b = Some ev2 ->
      x ∈ addresses (pointers ev1) -> x ∉ addresses (pointers ev2);
  wf_no_leak :
    forall x : address,
      is_Some (particles m !! x) ->
      exists (a : address) (ev : t),
        events m !! a = Some ev /\ x ∈ addresses (pointers ev)
}.

(** The addresses that each event holds. *)
Definition ownership (m : memory) : gmap address (list address) :=
  (fun ev => addresses (pointers ev)) <$> events m.

(** The live addresses are partitioned among the owners: no owner holds an
    address twice, two owners hold no address in common, and an address is
    live exactly when an owner holds it. *)
Definition partition (live : address -> Prop)
  (o : gmap address (list address)) : Prop :=
  (forall a l, o !! a = Some l -> NoDup l) /\
  (forall a b l1 l2 x,
     a <> b -> o !! a = Some l1 -> o !! b = Some l2 -> x ∈ l1 -> x ∉ l2) /\
  (forall x, live x <-> exists a l, o !! a = Some l /\ x ∈ l).

(** When an operation may be called: a constructor needs storage that holds
    no event, the other operations need live events, and a copy assignment
    needs two different events. *)
Definition applicable (op : operation) (m : memory) : Prop :=
  match op with
  | op_ctor this _ => events m !! this = None
  | op_ctor_2_to_2 this _ _ _ _ _ => events m !! this = None
  | op_copy_ctor this other =>
      events m !! this = None /\ is_Some (events m !! other)
  | op_move_ctor this other =>
      events m !! this = None /\ is_Some (events m !! other)
  | op_copy_assign this other =>
      this <> other /\ is_Some (events m !! this)
      /\ is_Some (events m !! other)
  | op_move_assign this other =>
      is_Some (events m !! this) /\ is_Some (events m !! other)
  | op_dtor this => is_Some (events m !! this)
  | op_add_initial_particle this _ => is_Some (events m !! this)
  | op_add_final_particle this _ => is_Some (events m !! this)
  end.

(** A list of operations each of which may be called when its turn comes. *)
Fixpoint applicable_all (ops : list operation) (m : memory) : Prop :=
  match ops with
  | [] => True
  | op :: ops' =>
      applicable op m /\
      forall m', run op m = Some (tt, m') -> applicable_all ops' m'
  end.

End Event_members.

(** The two events that [two_events] leaves, at the addresses 1 and 2. *)
Definition first_event : Event.t :=
  {| Event.initial_particles_ := [Some 1%positive; Some 2%positive];
     Event.final_particles_ := [Some 3%positive; Some 4%positive];
     Event.Ex_ := 3%float |}.


(** The memory after [f = std::move(e);] for the two events. *)
Definition two_events_moved : Event.memory :=
  memory_after (Event.move_assign 2%positive 1%positive
                  (memory_after two_events)).

Definition a_photon : Particle := Particle_at_rest marley_utils.PHOTON 0%float.

(** A program that makes two events, copies the first, moves the copy into
    the second, adds a photon to the first and destroys the three events. *)
Definition a_program : list Event_members.operation :=
  [ Event_members.op_ctor_2_to_2 1%positive
      (Particle_at_rest 12 0%float)
      (Particle_at_rest 1000180400 37224.75%float)
      (Particle_at_rest 11 0.5%float)
      (Particle_at_rest 1000190400 37226.25%float) 3%float;
    Event_members.op_ctor 2%positive 7%float;
    Event_members.op_copy_ctor 3%positive 1%positive;
    Event_members.op_move_assign 2%positive 3%positive;
    Event_members.op_add_final_particle 1%positive a_photon;
    Event_members.op_copy_assign 3%positive 1%positive;
    Event_members.op_move_assign 1%positive 1%positive;
    Event_members.op_dtor 3%positive;
    Event_members.op_dtor 2%positive;
    Event_members.op_dtor 1%positive ].

(** ** The kind of channel that a constructor call makes *)

(** Whether the class constructed derives from [ContinuumExitChannel]. *)
Definition constructs_continuum (e : new_expression) : bool :=
  match e with
  | new_FragmentDiscreteExitChannel _ _ _ _ => false
  | new_GammaDiscreteExitChannel _ _ _ => false
  | new_FragmentContinuumExitChannel _ _ _ _ _ _ => true
  | new_GammaContinuumExitChannel _ _ _ _ _ => true
  end.

(** The fragment that the constructor is given; the two gamma-ray classes
    take none. *)
Definition fragment_argument (e : new_expression) : option Fragment :=
  match e with
  | new_FragmentDiscreteExitChannel _ _ _ frag => Some frag
  | new_GammaDiscreteExitChannel _ _ _ => None
  | new_FragmentContinuumExitChannel _ _ _ _ frag _ => Some frag
  | new_GammaContinuumExitChannel _ _ _ _ _ => None
  end.
(** * Properties of the exit channels *)

(** ** Construction and the width *)

Lemma evaluate_new_constructs (e : new_expression) :
  exists ch, evaluate_new e = Constructed ch.
Proof. destruct e; simpl; eexists; reflexivity. Qed.

Lemma evaluate_new_width (e : new_expression) (ch : Channel) :
  evaluate_new e = Constructed ch -> width ch = width_argument e.
Proof.
  destruct e; simpl; intros Hnew; inversion Hnew; subst; reflexivity.
Qed.

Lemma after_call_width (ch : Channel) (call : member_call) :
  width (after_call ch call) = width ch.
Proof. destruct call, ch; reflexivity. Qed.

Lemma after_calls_width (calls : list member_call) :
  forall ch, width (after_calls ch calls) = width ch.
Proof.
  unfold after_calls.
  induction calls as [|call calls IH]; intros ch; simpl.
  - reflexivity.
  - rewrite IH. apply after_call_width.
Qed.

(** The calls of a lifetime never change the dynamic type either. *)
Lemma after_call_is_continuum (ch : Channel) (call : member_call) :
  is_continuum (after_call ch call) = is_continuum ch.
Proof. destruct call, ch; reflexivity. Qed.

Example minus_one_is_invalid : negative_or_non_finite minus_one = true.
Proof. reflexivity. Qed.

Example infinity_is_invalid : negative_or_non_finite infinity = true.
Proof. reflexivity. Qed.

Example nan_is_invalid : negative_or_non_finite nan = true.
Proof. reflexivity. Qed.

(** C9.  For every channel constructed with the width argument [w],
    [width()] returns exactly [w], and it still returns [w] after any
    sequence of calls of the member functions that the class offers: the
    width is constant after construction. *)
Theorem width_is_constructor_argument
  (e : new_expression) (ch : Channel) (calls : list member_call) :
  evaluate_new e = Constructed ch ->
  width ch = width_argument e /\
  width (after_calls ch calls) = width_argument e.
Proof.
  intros Hnew. rewrite after_calls_width.
  split; apply evaluate_new_width; exact Hnew.
Qed.

Lemma width_is_constructor_argument_witness :
  let e := new_GammaContinuumExitChannel 0.25%float 0%float 5%float
             (fun _ => 0.25%float) a_residue in
  let calls := [call_set_skip_jpi_sampling true;
                call_get_final_level_and_assign a_level;
                call_const_member
                  {| new_table :=
                       [ContinuumExitChannel.SpinParityWidth.ctor
                          2 ParityMinus 0.5%float];
                     new_skip := false;
                     new_Ecdf := None;
                     new_total_KE := None |};
                call_accessor] in
  exists ch, evaluate_new e = Constructed ch /\
             width ch = 0.25%float /\
             width (after_calls ch calls) = 0.25%float.
Proof.
  intros e calls. eexists. split; [reflexivity |].
  apply (width_is_constructor_argument e _ calls). reflexivity.
Defined.

(** C2, as the specification states it, fails: constructing each of the four
    channels with the width -1.0 throws nothing and stores -1.0. *)
Lemma negative_width_is_accepted :
  negative_or_non_finite minus_one = true /\
  (forall e,
     In e [new_FragmentDiscreteExitChannel minus_one a_level a_residue
             a_fragment;
           new_GammaDiscreteExitChannel minus_one a_level a_residue;
           new_FragmentContinuumExitChannel minus_one 0%float 5%float
             (fun e => (0.25%float, e)) a_fragment a_residue;
           new_GammaContinuumExitChannel minus_one 0%float 5%float
             (fun _ => 0.25%float) a_residue] ->
     evaluate_new e <> Throws InvalidWidth /\
     exists ch, evaluate_new e = Constructed ch /\ width ch = minus_one).
Proof.
  split; [reflexivity |].
  intros e He. simpl in He.
  repeat (destruct He as [<- | He];
          [split; [discriminate | eexists; split; reflexivity] |]).
  destruct He.
Qed.

(** C2, amended.  Whatever the width argument is (negative, infinite and
    not-a-number included), constructing a channel of any of the four classes
    throws no error and stores the argument unchanged. *)
Theorem construction_accepts_every_width (e : new_expression) :
  (forall err, evaluate_new e <> Throws err) /\
  exists ch, evaluate_new e = Constructed ch /\
             ExitChannel.width_ (as_ExitChannel ch) = width_argument e.
Proof.
  destruct (evaluate_new_constructs e) as [ch Hch]. split.
  - intros err. rewrite Hch. discriminate.
  - exists ch. split; [exact Hch |]. apply (evaluate_new_width e ch Hch).
Qed.

(** ** Discrete gamma channels *)

Lemma GammaDiscrete_do_decay_state
  (w : double) (flev : Level) (residue : Particle)
  (ch : GammaDiscreteExitChannel.t) (args : decay_arguments) :
  GammaDiscreteExitChannel.ctor w flev residue = Constructed ch ->
  let out := GammaDiscreteExitChannel.do_decay ch args in
  Ex out = energy flev /\ two_J out = twoJ flev /\ Pi out = parity flev.
Proof.
  intros Hnew. inversion Hnew; subst. repeat split.
Qed.

(** C3.  A call of [do_decay] on a discrete-gamma channel built from a
    final level leaves in [Ex], [two_J] and [Pi] exactly the excitation
    energy, twice the spin and the parity of that level, whatever the three
    held before the call (for the level with energy 1.0, twoJ 4 and parity
    +1: exactly 1.0, 4 and +1), and [emitted_particle_pdg()] is the photon
    code. *)
Theorem discrete_gamma_decay_sets_level_values
  (w : double) (flev : Level) (residue : Particle)
  (ch : GammaDiscreteExitChannel.t) (args : decay_arguments) :
  GammaDiscreteExitChannel.ctor w flev residue = Constructed ch ->
  Ex (GammaDiscreteExitChannel.do_decay ch args) = energy flev /\
  two_J (GammaDiscreteExitChannel.do_decay ch args) = twoJ flev /\
  Pi (GammaDiscreteExitChannel.do_decay ch args) = parity flev /\
  GammaDiscreteExitChannel.emitted_particle_pdg ch = marley_utils.PHOTON /\
  emitted_particle_pdg (GammaDiscrete ch) = marley_utils.PHOTON.
Proof.
  intros Hnew.
  destruct (GammaDiscrete_do_decay_state w flev residue ch args Hnew)
    as (HEx & HJ & HPi).
  repeat split; assumption.
Qed.

Lemma discrete_gamma_decay_sets_level_values_witness :
  exists ch,
    GammaDiscreteExitChannel.ctor 0.5%float a_level a_residue
      = Constructed ch /\
    forall Ex0 two_J0 Pi0 p q g,
      let out := GammaDiscreteExitChannel.do_decay ch
                   {| Ex := Ex0; two_J := two_J0; Pi := Pi0;
                      emitted_particle := p; residual_nucleus := q;
                      gen := g |} in
      Ex out = 1%float /\ two_J out = 4 /\ Pi out = ParityPlus /\
      GammaDiscreteExitChannel.emitted_particle_pdg ch = 22.
Proof.
  eexists. split; [reflexivity |].
  intros Ex0 two_J0 Pi0 p q g out.
  destruct (discrete_gamma_decay_sets_level_values 0.5%float a_level
              a_residue _
              {| Ex := Ex0; two_J := two_J0; Pi := Pi0;
                 emitted_particle := p; residual_nucleus := q; gen := g |}
              eq_refl) as (HEx & HJ & HPi & Hpdg & _).
  repeat split; assumption.
Defined.

(** ** The kind of a channel and the particle it emits *)

Lemma after_call_emits_fragment (ch : Channel) (call : member_call) :
  emits_fragment (after_call ch call) = emits_fragment ch.
Proof. destruct call, ch; reflexivity. Qed.

Lemma after_call_emitted_particle_pdg (ch : Channel) (call : member_call) :
  emitted_particle_pdg (after_call ch call) = emitted_particle_pdg ch.
Proof. destruct call, ch; reflexivity. Qed.

Lemma after_calls_kind (calls : list member_call) :
  forall ch,
    is_continuum (after_calls ch calls) = is_continuum ch /\
    emits_fragment (after_calls ch calls) = emits_fragment ch /\
    emitted_particle_pdg (after_calls ch calls) = emitted_particle_pdg ch.
Proof.
  unfold after_calls.
  induction calls as [| call calls IH]; intros ch; simpl.
  - repeat split.
  - destruct (IH (after_call ch call)) as (Hc & Hf & Hp).
    rewrite Hc, Hf, Hp, after_call_is_continuum, after_call_emits_fragment,
      after_call_emitted_particle_pdg.
    repeat split.
Qed.

(** X1.  The overrides of [is_continuum], [emits_fragment] and
    [emitted_particle_pdg] answer by the class that was constructed and by the
    fragment that its constructor was given, and no call of a member function
    of the channel changes the answer: a channel is a continuum channel
    exactly when a class derived from [ContinuumExitChannel] was constructed,
    it emits a fragment exactly when its constructor took one, and the emitted
    particle is that fragment's or else the photon. *)
Theorem kind_and_emitted_particle_are_fixed
  (e : new_expression) (ch : Channel) (calls : list member_call) :
  evaluate_new e = Constructed ch ->
  is_continuum (after_calls ch calls) = constructs_continuum e /\
  emits_fragment (after_calls ch calls)
  = match fragment_argument e with Some _ => true | None => false end /\
  emitted_particle_pdg (after_calls ch calls)
  = match fragment_argument e with
    | Some frag => get_pid frag
    | None => marley_utils.PHOTON
    end.
Proof.
  intros Hnew. destruct (after_calls_kind calls ch) as (Hc & Hf & Hp).
  rewrite Hc, Hf, Hp.
  destruct e; simpl in Hnew; inversion Hnew; subst; repeat split.
Qed.

Lemma kind_and_emitted_particle_are_fixed_witness :
  exists ch : Channel,
    evaluate_new
      (new_FragmentContinuumExitChannel 0.25%float 0%float 5%float
         (fun E => (0.25%float, E)) a_fragment a_residue)
    = Constructed ch /\
    is_continuum
      (after_calls ch [call_set_skip_jpi_sampling true; call_accessor])
    = true /\
    emits_fragment
      (after_calls ch [call_set_skip_jpi_sampling true; call_accessor])
    = true /\
    emitted_particle_pdg
      (after_calls ch [call_set_skip_jpi_sampling true; call_accessor])
    = get_pid a_fragment.
Proof.
  eexists. split; [reflexivity |].
  apply (kind_and_emitted_particle_are_fixed
           (new_FragmentContinuumExitChannel 0.25%float 0%float 5%float
              (fun E => (0.25%float, E)) a_fragment a_residue)
           _ [call_set_skip_jpi_sampling true; call_accessor]).
  reflexivity.
Defined.

(** * Properties of the event record *)

Section event_memory.

Import Event.

Lemma memory_eta (m : memory) :
  {| particles := particles m; events := events m |} = m.
Proof. destruct m; reflexivity. Qed.

Lemma put_event_lookup (this : address) (ev : t) (m : memory) :
  events (put_event this ev m) !! this = Some ev.
Proof. apply lookup_insert_eq. Qed.

Lemma put_event_lookup_ne (this a : address) (ev : t) (m : memory) :
  this <> a -> events (put_event this ev m) !! a = events m !! a.
Proof. intros Hne. apply lookup_insert_ne, Hne. Qed.

Lemma put_event_twice (this : address) (ev ev' : t) (m : memory) :
  put_event this ev' (put_event this ev m) = put_event this ev' m.
Proof. unfold put_event; simpl. rewrite insert_insert_eq. reflexivity. Qed.

Lemma put_event_same (this : address) (ev : t) (m : memory) :
  events m !! this = Some ev -> put_event this ev m = m.
Proof.
  intros Hev. unfold put_event. rewrite (insert_id _ _ _ Hev).
  apply memory_eta.
Qed.

Lemma put_particles_twice (h h' : gmap address Particle) (m : memory) :
  put_particles h' (put_particles h m) = put_particles h' m.
Proof. reflexivity. Qed.

Lemma put_particles_same (m : memory) : put_particles (particles m) m = m.
Proof. apply memory_eta. Qed.

Lemma get_set_vector (v : particle_vector) (l : list Particle_ptr) (ev : t) :
  get_vector v (set_vector v l ev) = l.
Proof. destruct v; reflexivity. Qed.

Lemma get_set_vector_ne (v w : particle_vector) (l : list Particle_ptr)
  (ev : t) :
  v <> w -> get_vector v (set_vector w l ev) = get_vector v ev.
Proof. destruct v, w; intros Hne; try reflexivity; congruence. Qed.

Lemma set_set_vector (v : particle_vector) (l l' : list Particle_ptr)
  (ev : t) :
  set_vector v l' (set_vector v l ev) = set_vector v l' ev.
Proof. destruct v; reflexivity. Qed.

Lemma set_get_vector (v : particle_vector) (ev : t) :
  set_vector v (get_vector v ev) ev = ev.
Proof. destruct v, ev; reflexivity. Qed.

Lemma get_vector_set_Ex (v : particle_vector) (x : double) (ev : t) :
  get_vector v (set_Ex x ev) = get_vector v ev.
Proof. destruct v; reflexivity. Qed.

(** *** Running the statements *)

Lemma bind_Some {R S : Type} (c : M R) (k : R -> M S) (m m' : memory)
  (r : R) :
  c m = Some (r, m') -> (c ≫= k) m = k r m'.
Proof. intros Hc. unfold mbind, M_bind. rewrite Hc. reflexivity. Qed.

Lemma load_live (this : address) (ev : t) (m : memory) :
  events m !! this = Some ev -> load this m = Some (ev, m).
Proof. intros Hev. unfold load. rewrite Hev. reflexivity. Qed.

Lemma store_live (this : address) (ev ev' : t) (m : memory) :
  events m !! this = Some ev ->
  store this ev' m = Some (tt, put_event this ev' m).
Proof. intros Hev. unfold store. rewrite Hev. reflexivity. Qed.

Lemma construct_free (this : address) (ev : t) (m : memory) :
  events m !! this = None ->
  construct this ev m = Some (tt, put_event this ev m).
Proof. intros Hev. unfold construct. rewrite Hev. reflexivity. Qed.

Lemma read_Ex_live (this : address) (ev : t) (m : memory) :
  events m !! this = Some ev -> read_Ex this m = Some (Ex_ ev, m).
Proof.
  intros Hev. unfold read_Ex. rewrite (bind_Some _ _ _ _ _ (load_live _ _ _ Hev)).
  reflexivity.
Qed.

Lemma write_Ex_live (this : address) (x : double) (ev : t) (m : memory) :
  events m !! this = Some ev ->
  write_Ex this x m = Some (tt, put_event this (set_Ex x ev) m).
Proof.
  intros Hev. unfold write_Ex.
  rewrite (bind_Some _ _ _ _ _ (load_live _ _ _ Hev)).
  apply (store_live _ _ _ _ Hev).
Qed.

Lemma elements_live (v : particle_vector) (this : address) (ev : t)
  (m : memory) :
  events m !! this = Some ev ->
  elements v this m = Some (get_vector v ev, m).
Proof.
  intros Hev. unfold elements.
  rewrite (bind_Some _ _ _ _ _ (load_live _ _ _ Hev)). reflexivity.
Qed.

Lemma size_live (v : particle_vector) (this : address) (ev : t)
  (m : memory) :
  events m !! this = Some ev ->
  size v this m = Some (length (get_vector v ev), m).
Proof.
  intros Hev. unfold size.
  rewrite (bind_Some _ _ _ _ _ (load_live _ _ _ Hev)). reflexivity.
Qed.

Lemma resize_live (v : particle_vector) (this : address) (n : nat) (ev : t)
  (m : memory) :
  events m !! this = Some ev ->
  resize v this n m
  = Some (tt, put_event this
                (set_vector v
                   (take n (get_vector v ev)
                    ++ replicate (n - length (get_vector v ev)) nullptr) ev)
                m).
Proof.
  intros Hev. unfold resize.
  rewrite (bind_Some _ _ _ _ _ (load_live _ _ _ Hev)).
  apply (store_live _ _ _ _ Hev).
Qed.

Lemma clear_live (v : particle_vector) (this : address) (ev : t)
  (m : memory) :
  events m !! this = Some ev ->
  clear v this m = Some (tt, put_event this (set_vector v [] ev) m).
Proof.
  intros Hev. unfold clear.
  rewrite (bind_Some _ _ _ _ _ (load_live _ _ _ Hev)).
  apply (store_live _ _ _ _ Hev).
Qed.

Lemma read_at_live (v : particle_vector) (this : address) (i : nat)
  (p : Particle_ptr) (ev : t) (m : memory) :
  events m !! this = Some ev ->
  get_vector v ev !! i = Some p ->
  read_at v this i m = Some (p, m).
Proof. intros Hev Hp. unfold read_at. rewrite Hev, Hp. reflexivity. Qed.

Lemma write_at_live (v : particle_vector) (this : address) (i : nat)
  (p : Particle_ptr) (ev : t) (m : memory) :
  events m !! this = Some ev ->
  (i < length (get_vector v ev))%nat ->
  write_at v this i p m
  = Some (tt, put_event this
                (set_vector v (<[i := p]> (get_vector v ev)) ev) m).
Proof.
  intros Hev Hi. unfold write_at.
  rewrite (bind_Some _ _ _ _ _ (load_live _ _ _ Hev)).
  rewrite (decide_True _ _ Hi). apply (store_live _ _ _ _ Hev).
Qed.

(** *** The two loops *)

(** Copying the pointers at the indices [k, k+n), when the ones before [k]
    are copied already, leaves the destination vector equal to the source
    vector. *)
Lemma copy_loop (v : particle_vector) (this other : address) (src : t)
  (n : nat) :
  forall (k : nat) (dst : t) (m : memory),
    this <> other ->
    events m !! other = Some src ->
    events m !! this = Some dst ->
    length (get_vector v dst) = length (get_vector v src) ->
    (k + n)%nat = length (get_vector v src) ->
    take k (get_vector v dst) = take k (get_vector v src) ->
    for_each (fun i => p ← read_at v other i; write_at v this i p)
      (seq k n) m
    = Some (tt, put_event this (set_vector v (get_vector v src) dst) m).
Proof.
  induction n as [|n IH]; intros k dst m Hne Hsrc Hdst Hlen Hk Htake.
  - simpl. unfold mret, M_ret. do 2 f_equal.
    rewrite !take_ge in Htake by lia.
    rewrite <- Htake, set_get_vector.
    symmetry. apply put_event_same, Hdst.
  - destruct (lookup_lt_is_Some_2 (get_vector v src) k) as [p Hp]; [lia |].
    simpl seq. simpl for_each.
    rewrite (bind_Some _ _ m
               (put_event this
                  (set_vector v (<[k := p]> (get_vector v dst)) dst) m) tt).
    + rewrite (IH (S k) (set_vector v (<[k := p]> (get_vector v dst)) dst)
                 (put_event this
                    (set_vector v (<[k := p]> (get_vector v dst)) dst) m)
                 Hne).
      * rewrite set_set_vector, put_event_twice. reflexivity.
      * rewrite put_event_lookup_ne by exact Hne. exact Hsrc.
      * apply put_event_lookup.
      * rewrite get_set_vector, length_insert. exact Hlen.
      * lia.
      * rewrite get_set_vector.
        rewrite (take_S_r _ _ p), (take_S_r _ _ _ Hp).
        -- rewrite take_insert_ge by lia. rewrite Htake. reflexivity.
        -- apply list_lookup_insert_eq. lia.
    + rewrite (bind_Some _ _ _ _ _ (read_at_live v other k p src m Hsrc Hp)).
      apply write_at_live; [exact Hdst | lia].
Qed.

Lemma copy_pointers_live (v : particle_vector) (this other : address)
  (src dst : t) (m : memory) :
  this <> other ->
  events m !! other = Some src ->
  events m !! this = Some dst ->
  length (get_vector v dst) = length (get_vector v src) ->
  copy_pointers v this other m
  = Some (tt, put_event this (set_vector v (get_vector v src) dst) m).
Proof.
  intros Hne Hsrc Hdst Hlen. unfold copy_pointers.
  rewrite (bind_Some _ _ _ _ _ (size_live v other src m Hsrc)).
  apply copy_loop; try assumption; [lia | reflexivity].
Qed.

Lemma addresses_cons_Some (a : address) (ps : list Particle_ptr) :
  addresses (Some a :: ps) = a :: addresses ps.
Proof. reflexivity. Qed.

Lemma addresses_cons_None (ps : list Particle_ptr) :
  addresses (None :: ps) = addresses ps.
Proof. reflexivity. Qed.

Lemma addresses_app (ps qs : list Particle_ptr) :
  addresses (ps ++ qs) = addresses ps ++ addresses qs.
Proof. apply omap_app. Qed.

(** A particle that is not deleted stays where it is. *)
Lemma released_lookup (ps : list Particle_ptr) :
  forall (h : gmap address Particle) (a : address),
    a ∉ addresses ps -> released ps h !! a = h !! a.
Proof.
  induction ps as [|[b|] ps IH]; intros h a Ha; simpl.
  - reflexivity.
  - rewrite addresses_cons_Some in Ha.
    apply not_elem_of_cons in Ha as [Hab Ha].
    unfold released in IH. rewrite IH by exact Ha.
    apply lookup_delete_ne. congruence.
  - apply IH, Ha.
Qed.

Lemma released_app (ps qs : list Particle_ptr) (h : gmap address Particle) :
  released (ps ++ qs) h = released qs (released ps h).
Proof. apply fold_left_app. Qed.

(** Deleting every pointer of a list, each of them live and none twice. *)
Lemma delete_each (ps : list Particle_ptr) :
  forall m : memory,
    NoDup (addresses ps) ->
    (forall a, a ∈ addresses ps -> is_Some (particles m !! a)) ->
    for_each delete_Particle ps m
    = Some (tt, put_particles (released ps (particles m)) m).
Proof.
  induction ps as [|[a|] ps IH]; intros m Hnodup Hlive.
  - simpl. unfold mret, M_ret. rewrite put_particles_same. reflexivity.
  - rewrite addresses_cons_Some in Hnodup, Hlive.
    apply NoDup_cons in Hnodup as [Ha Hnodup].
    destruct (Hlive a) as [p Hp]; [left |].
    simpl for_each.
    rewrite (bind_Some _ _ m (put_particles (delete a (particles m)) m) tt).
    + rewrite IH.
      * reflexivity.
      * exact Hnodup.
      * intros b Hb. simpl. rewrite lookup_delete_ne.
        -- apply Hlive. right. exact Hb.
        -- intros ->. contradiction.
    + unfold delete_Particle. rewrite Hp. reflexivity.
  - simpl for_each.
    rewrite (bind_Some _ _ m m tt) by reflexivity.
    apply IH; assumption.
Qed.

(** *** The two moves *)

Lemma memory_ext (m1 m2 : memory) :
  particles m1 = particles m2 ->
  (forall a, events m1 !! a = events m2 !! a) ->
  m1 = m2.
Proof.
  destruct m1 as [h1 e1], m2 as [h2 e2]; simpl.
  intros -> Hev. f_equal. apply map_eq, Hev.
Qed.

Lemma put_particles_events (h : gmap address Particle) (m : memory) :
  events (put_particles h m) = events m.
Proof. reflexivity. Qed.

Lemma put_event_particles (this : address) (ev : t) (m : memory) :
  particles (put_event this ev m) = particles m.
Proof. reflexivity. Qed.

Ltac lookup_event :=
  repeat first
    [ rewrite put_particles_events
    | rewrite put_event_lookup
    | rewrite put_event_lookup_ne by congruence ];
  first [ eassumption | reflexivity ].

Ltac run_with lem :=
  erewrite bind_Some by (eapply lem; lookup_event).

Ltac same_events :=
  intros ?a; unfold put_event, put_particles; simpl;
  rewrite !lookup_insert; repeat case_decide; subst;
  try reflexivity; try congruence.

Lemma move_ctor_live (this other : address) (src : t) (m : memory) :
  events m !! other = Some src ->
  events m !! this = None ->
  move_ctor this other m
  = Some (tt, put_event other moved_from (put_event this src m)).
Proof.
  intros Hsrc Hfree.
  assert (Hne : this <> other) by congruence.
  unfold move_ctor.
  run_with size_live. run_with size_live. run_with read_Ex_live.
  run_with construct_free. run_with write_Ex_live.
  erewrite bind_Some
    by (eapply (copy_pointers_live initial_particles this other);
        [exact Hne | lookup_event | lookup_event
        | simpl; apply length_replicate]).
  erewrite bind_Some
    by (eapply (copy_pointers_live final_particles this other);
        [exact Hne | lookup_event | lookup_event
        | simpl; apply length_replicate]).
  run_with clear_live.
  erewrite clear_live by lookup_event.
  do 2 f_equal. apply memory_ext; [reflexivity |].
  same_events. destruct src; reflexivity.
Qed.

Lemma move_assign_live (this other : address) (src dst : t) (m : memory) :
  this <> other ->
  events m !! this = Some dst ->
  events m !! other = Some src ->
  owns m dst ->
  move_assign this other m
  = Some (tt, put_particles (released (pointers dst) (particles m))
                (put_event other moved_from (put_event this src m))).
Proof.
  intros Hne Hdst Hsrc [Hnodup Hlive].
  unfold pointers in *. rewrite addresses_app in Hnodup, Hlive.
  apply NoDup_app in Hnodup as (Hnd_i & Hdisj & Hnd_f).
  unfold move_assign.
  run_with read_Ex_live. run_with write_Ex_live. run_with write_Ex_live.
  run_with elements_live.
  erewrite bind_Some
    by (eapply delete_each;
        [exact Hnd_i
        | intros a Ha; rewrite !put_event_particles;
          apply Hlive, elem_of_app; left; exact Ha]).
  run_with elements_live.
  erewrite bind_Some
    by (eapply delete_each;
        [exact Hnd_f
        | intros a Ha; simpl particles;
          rewrite released_lookup by (intros Hin; exact (Hdisj a Hin Ha));
          apply Hlive, elem_of_app; right; exact Ha]).
  run_with size_live. run_with resize_live.
  run_with size_live. run_with resize_live.
  erewrite bind_Some
    by (eapply (copy_pointers_live initial_particles this other);
        [exact Hne | lookup_event | lookup_event
        | simpl; rewrite length_app, length_take, length_replicate; lia]).
  erewrite bind_Some
    by (eapply (copy_pointers_live final_particles this other);
        [exact Hne | lookup_event | lookup_event
        | simpl; rewrite length_app, length_take, length_replicate; lia]).
  run_with clear_live.
  erewrite clear_live by lookup_event.
  do 2 f_equal. apply memory_ext.
  - simpl. rewrite released_app. reflexivity.
  - same_events. destruct src; reflexivity.
Qed.

Lemma pointee_released (ps : list Particle_ptr) (m : memory)
  (p : Particle_ptr) :
  (forall a, p = Some a -> a ∉ addresses ps) ->
  pointee (put_particles (released ps (particles m)) m) p = pointee m p.
Proof.
  intros Hp. destruct p as [a|]; [| reflexivity].
  simpl. apply released_lookup, Hp. reflexivity.
Qed.

Lemma elem_of_addresses (a : address) (ps : list Particle_ptr) :
  Some a ∈ ps -> a ∈ addresses ps.
Proof.
  intros Ha. apply list_elem_of_omap. exists (Some a). split; [exact Ha |].
  reflexivity.
Qed.

Example two_events_state :
  map_to_list (events (memory_after two_events))
  = [(2%positive,
      {| initial_particles_ := [Some 5%positive; Some 6%positive];
         final_particles_ := [Some 7%positive; Some 8%positive];
         Ex_ := 7%float |});
     (1%positive,
      {| initial_particles_ := [Some 1%positive; Some 2%positive];
         final_particles_ := [Some 3%positive; Some 4%positive];
         Ex_ := 3%float |})].
Proof. vm_compute. reflexivity. Qed.

(** *** The constructors establish ownership *)

Lemma new_Particle_fresh (p : Particle) (m : memory) :
  exists a : address,
    new_Particle p m
    = Some (Some a, put_particles (<[a := p]> (particles m)) m) /\
    particles m !! a = None.
Proof.
  exists (fresh (dom (particles m))). split; [reflexivity |].
  apply not_elem_of_dom, is_fresh.
Qed.

(** The event that [Event(a, b, c, d, Ex)] constructs owns four new
    particles, copies of [a], [b], [c] and [d]; the particles and the events
    that were live before are left as they were. *)
Lemma ctor_2_to_2_live (this : address) (a b c d : Particle) (Ex : double)
  (m : memory) :
  events m !! this = None ->
  exists (m' : memory) (ev : t),
    ctor_2_to_2 this a b c d Ex m = Some (tt, m') /\
    events m' !! this = Some ev /\
    Ex_ ev = Ex /\
    owns m' ev /\
    particle_values m' this = Some ([Some a; Some b], [Some c; Some d]) /\
    (forall x, x ∈ addresses (pointers ev) -> particles m !! x = None) /\
    (forall x, is_Some (particles m !! x) ->
               particles m' !! x = particles m !! x) /\
    (forall o, o <> this -> events m' !! o = events m !! o).
Proof.
  intros Hfree. unfold ctor_2_to_2.
  destruct (new_Particle_fresh a m) as (pa & Hrun_a & Ha).
  rewrite (bind_Some _ _ _ _ _ Hrun_a).
  destruct (new_Particle_fresh b (put_particles (<[pa := a]> (particles m)) m))
    as (pb & Hrun_b & Hb).
  rewrite (bind_Some _ _ _ _ _ Hrun_b).
  destruct (new_Particle_fresh c
              (put_particles (<[pb := b]> (<[pa := a]> (particles m))) m))
    as (pc & Hrun_c & Hc).
  rewrite put_particles_twice in Hrun_c.
  rewrite (bind_Some _ _ _ _ _ Hrun_c).
  destruct (new_Particle_fresh d
              (put_particles
                 (<[pc := c]> (<[pb := b]> (<[pa := a]> (particles m)))) m))
    as (pd & Hrun_d & Hd).
  rewrite !put_particles_twice in Hrun_d.
  rewrite (bind_Some _ _ _ _ _ Hrun_d).
  simpl in Hb, Hc, Hd.
  apply lookup_insert_None in Hb as [Hb Hba].
  apply lookup_insert_None in Hc as [Hc Hcb].
  apply lookup_insert_None in Hc as [Hc Hca].
  apply lookup_insert_None in Hd as [Hd Hdc].
  apply lookup_insert_None in Hd as [Hd Hdb].
  apply lookup_insert_None in Hd as [Hd Hda].
  eexists _, _. split; [apply construct_free; exact Hfree |].
  split; [apply put_event_lookup |].
  split; [reflexivity |].
  split; [| split; [| split; [| split]]].
  - split.
    + simpl. repeat (apply NoDup_cons; split);
        rewrite ?elem_of_cons, ?elem_of_nil; try tauto; try apply NoDup_nil_2;
        intros Hin; repeat destruct Hin as [Hin | Hin]; congruence.
    + intros x Hx. simpl in Hx. simpl particles.
      rewrite !elem_of_cons, elem_of_nil in Hx.
      destruct Hx as [-> | [-> | [-> | [-> | []]]]];
        rewrite ?lookup_insert_eq;
        repeat (rewrite lookup_insert_ne by congruence);
        rewrite ?lookup_insert_eq; eauto.
  - unfold particle_values. rewrite put_event_lookup. simpl.
    rewrite lookup_insert_eq.
    repeat (rewrite lookup_insert_ne by congruence; rewrite ?lookup_insert_eq).
    reflexivity.
  - intros x Hx. simpl in Hx. rewrite !elem_of_cons, elem_of_nil in Hx.
    destruct Hx as [-> | [-> | [-> | [-> | []]]]]; assumption.
  - intros x [q Hq]. simpl.
    repeat (rewrite lookup_insert_ne by congruence). reflexivity.
  - intros o Ho. rewrite put_event_lookup_ne by congruence. reflexivity.
Qed.

(** C10, as it is stated, fails for a move assignment of an event to
    itself: after [Event e(a, b, c, d, 3.); e = std::move(e);] the event
    holds no particle, where it held four before the move. *)
Lemma self_move_assignment_loses_the_particles :
  let m := memory_after
             (Event.ctor_2_to_2 1%positive
                (Particle_at_rest 12 0%float)
                (Particle_at_rest 1000180400 37224.75%float)
                (Particle_at_rest 11 0.5%float)
                (Particle_at_rest 1000190400 37226.25%float) 3%float
                empty_memory) in
  let m' := memory_after (move move_assignment 1%positive 1%positive m) in
  move move_assignment 1%positive 1%positive m <> None /\
  particle_values m 1%positive
  = Some ([Some (Particle_at_rest 12 0%float);
           Some (Particle_at_rest 1000180400 37224.75%float)],
          [Some (Particle_at_rest 11 0.5%float);
           Some (Particle_at_rest 1000190400 37226.25%float)]) /\
  particle_values m' 1%positive = Some ([], []) /\
  particle_values m' 1%positive <> particle_values m 1%positive.
Proof.
  intros m m'.
  assert (Hm : particle_values m 1%positive
               = Some ([Some (Particle_at_rest 12 0%float);
                        Some (Particle_at_rest 1000180400 37224.75%float)],
                       [Some (Particle_at_rest 11 0.5%float);
                        Some (Particle_at_rest 1000190400 37226.25%float)]))
    by (vm_compute; reflexivity).
  assert (Hm' : particle_values m' 1%positive = Some ([], []))
    by (vm_compute; reflexivity).
  split; [vm_compute; discriminate |].
  split; [exact Hm |]. split; [exact Hm' |].
  rewrite Hm, Hm'. discriminate.
Qed.

(** C10, amended.  After a move construction into storage that holds no
    event, and after a move assignment to an event that is another object
    than the source, owns its particles and shares none with the source, the
    moved-from event has [Ex_] equal to 0 and both of its particle vectors
    empty, and the destination holds the pointers, and through them exactly
    the particle values, that the source held before the move. *)
Theorem move_empties_source_and_fills_destination
  (k : move_kind) (this other : address) (m : memory) :
  movable k this other m ->
  exists (m' : memory) (src left : t),
    events m !! other = Some src /\
    move k this other m = Some (tt, m') /\
    events m' !! other = Some left /\
    Ex_ left = 0%float /\
    initial_particles_ left = [] /\
    final_particles_ left = [] /\
    events m' !! this = Some src /\
    particle_values m' this = particle_values m other.
Proof.
  destruct k; simpl.
  - intros [[src Hsrc] Hfree].
    assert (Hne : this <> other) by congruence.
    exists (put_event other moved_from (put_event this src m)), src,
      moved_from.
    split; [exact Hsrc |].
    split; [apply move_ctor_live; assumption |].
    split; [apply put_event_lookup |].
    do 3 (split; [reflexivity |]).
    assert (Hthis : events (put_event other moved_from (put_event this src m))
                      !! this = Some src)
      by (rewrite put_event_lookup_ne by congruence; apply put_event_lookup).
    split; [exact Hthis |].
    unfold particle_values. rewrite Hthis, Hsrc. reflexivity.
  - intros (Hne & dst & src & Hdst & Hsrc & Hown & Hshare).
    exists (put_particles (released (pointers dst) (particles m))
              (put_event other moved_from (put_event this src m))), src,
      moved_from.
    split; [exact Hsrc |].
    split; [apply (move_assign_live this other src dst); assumption |].
    split; [rewrite put_particles_events; apply put_event_lookup |].
    do 3 (split; [reflexivity |]).
    assert (Hthis : events
                      (put_particles (released (pointers dst) (particles m))
                         (put_event other moved_from (put_event this src m)))
                      !! this = Some src)
      by (rewrite put_particles_events, put_event_lookup_ne by congruence;
          apply put_event_lookup).
    split; [exact Hthis |].
    unfold particle_values. rewrite Hthis, Hsrc. f_equal.
    assert (Hsame : forall p, p ∈ pointers src ->
              pointee (put_particles (released (pointers dst) (particles m))
                         (put_event other moved_from (put_event this src m)))
                p = pointee m p).
    { intros p Hp. destruct p as [a|]; [| reflexivity].
      simpl. apply released_lookup, Hshare, elem_of_addresses, Hp. }
    f_equal; apply list_fmap_ext; intros i p Hi; apply Hsame;
      unfold pointers; apply elem_of_app;
      [left | right]; apply (list_elem_of_lookup_2 _ i), Hi.
Qed.

Lemma two_events_movable :
  movable move_assignment 2%positive 1%positive (memory_after two_events).
Proof.
  split; [discriminate |].
  eexists _, _.
  split; [vm_compute; reflexivity |].
  split; [vm_compute; reflexivity |].
  split.
  - split.
    + compute_done.
    + intros a Ha. vm_compute in Ha.
      repeat (apply elem_of_cons in Ha as [-> | Ha];
              [vm_compute; eexists; reflexivity |]).
      apply elem_of_nil in Ha. destruct Ha.
  - intros a Ha. vm_compute in Ha.
    repeat (apply elem_of_cons in Ha as [-> | Ha];
            [compute_done |]).
    apply elem_of_nil in Ha. destruct Ha.
Qed.

Lemma move_empties_source_and_fills_destination_witness :
  exists (m' : memory) (src left : t),
    events (memory_after two_events) !! 1%positive = Some src /\
    move move_assignment 2%positive 1%positive (memory_after two_events)
    = Some (tt, m') /\
    events m' !! 1%positive = Some left /\
    Ex_ left = 0%float /\
    initial_particles_ left = [] /\
    final_particles_ left = [] /\
    events m' !! 2%positive = Some src /\
    particle_values m' 2%positive
    = particle_values (memory_after two_events) 1%positive.
Proof.
  apply (move_empties_source_and_fills_destination move_assignment
           2%positive 1%positive (memory_after two_events)
           two_events_movable).
Defined.

End event_memory.

(** * Properties of the other member functions of the event record *)

Section event_members.

Import Event.
Import Event_members.

Ltac live_event :=
  repeat first
    [ rewrite put_particles_events
    | rewrite put_event_lookup
    | rewrite put_event_lookup_ne by congruence ];
  first [ eassumption | reflexivity ].

Ltac step_with lem :=
  erewrite bind_Some by (eapply lem; live_event).

Ltac events_agree :=
  intros ?a; unfold put_event, put_particles; simpl;
  repeat first [rewrite lookup_insert | rewrite lookup_delete];
  repeat case_decide; subst; try reflexivity; try congruence.

(** *** Statements of the other member functions *)

Lemma deref_Particle_live (p : Particle_ptr) (x : Particle) (m : memory) :
  pointee m p = Some x -> deref_Particle p m = Some (x, m).
Proof. intros Hp. unfold deref_Particle. rewrite Hp. reflexivity. Qed.

Lemma deref_Particle_dead (p : Particle_ptr) (m : memory) :
  pointee m p = None -> deref_Particle p m = None.
Proof. intros Hp. unfold deref_Particle. rewrite Hp. reflexivity. Qed.

Lemma destroy_live (this : address) (ev : t) (m : memory) :
  events m !! this = Some ev ->
  destroy this m
  = Some (tt, {| particles := particles m;
                 events := delete this (events m) |}).
Proof. intros Hev. unfold destroy. rewrite Hev. reflexivity. Qed.

Lemma push_back_live (v : particle_vector) (this : address)
  (p : Particle_ptr) (ev : t) (m : memory) :
  events m !! this = Some ev ->
  push_back v this p m
  = Some (tt, put_event this (set_vector v (get_vector v ev ++ [p]) ev) m).
Proof.
  intros Hev. unfold push_back.
  rewrite (bind_Some _ _ _ _ _ (load_live _ _ _ Hev)).
  apply (store_live _ _ _ _ Hev).
Qed.

Lemma at_live (v : particle_vector) (this : address) (i : nat) (ev : t)
  (m : memory) :
  events m !! this = Some ev ->
  at_ v this i m
  = Some (match get_vector v ev !! i with
          | Some p => returned p
          | None => thrown out_of_range
          end, m).
Proof.
  intros Hev. unfold at_.
  rewrite (bind_Some _ _ _ _ _ (load_live _ _ _ Hev)). reflexivity.
Qed.

(** An accessor reads the particle values of the event: it returns the
    value at its index, throws past the end, and is undefined at a pointer
    that designates no particle. *)
Lemma particle_at_live (v : particle_vector) (this : address) (i : nat)
  (ev : t) (m : memory) :
  events m !! this = Some ev ->
  particle_at v this i m
  = match (pointee m <$> get_vector v ev) !! i with
    | Some (Some x) => Some (returned x, m)
    | Some None => None
    | None => Some (thrown out_of_range, m)
    end.
Proof.
  intros Hev. unfold particle_at.
  rewrite (bind_Some _ _ _ _ _ (at_live v this i ev m Hev)).
  rewrite list_lookup_fmap.
  destruct (get_vector v ev !! i) as [p|]; simpl; [| reflexivity].
  destruct (pointee m p) as [x|] eqn:Hp.
  - rewrite (bind_Some _ _ _ _ _ (deref_Particle_live p x m Hp)).
    reflexivity.
  - unfold mbind, M_bind. rewrite (deref_Particle_dead p m Hp). reflexivity.
Qed.

(** *** Move assignment of an event to itself *)

Lemma copy_loop_self (v : particle_vector) (this : address) (ev : t)
  (m : memory) (n : nat) :
  forall k : nat,
    events m !! this = Some ev ->
    (k + n)%nat = length (get_vector v ev) ->
    for_each (fun i => p ← read_at v this i; write_at v this i p)
      (seq k n) m
    = Some (tt, m).
Proof.
  induction n as [|n IH]; intros k Hev Hk; [reflexivity |].
  destruct (lookup_lt_is_Some_2 (get_vector v ev) k) as [p Hp]; [lia |].
  simpl seq. simpl for_each.
  rewrite (bind_Some _ _ m m tt).
  - apply IH; [exact Hev | lia].
  - rewrite (bind_Some _ _ _ _ _ (read_at_live v this k p ev m Hev Hp)).
    rewrite (write_at_live v this k p ev m Hev) by lia.
    rewrite (list_insert_id _ _ _ Hp), set_get_vector.
    rewrite (put_event_same _ _ _ Hev). reflexivity.
Qed.

Lemma copy_pointers_self (v : particle_vector) (this : address) (ev : t)
  (m : memory) :
  events m !! this = Some ev ->
  copy_pointers v this this m = Some (tt, m).
Proof.
  intros Hev. unfold copy_pointers.
  rewrite (bind_Some _ _ _ _ _ (size_live v this ev m Hev)).
  apply (copy_loop_self v this ev); [exact Hev | reflexivity].
Qed.

Lemma resize_same (v : particle_vector) (this : address) (ev : t)
  (m : memory) :
  events m !! this = Some ev ->
  resize v this (length (get_vector v ev)) m = Some (tt, m).
Proof.
  intros Hev. rewrite (resize_live v this _ ev m Hev).
  rewrite take_ge, Nat.sub_diag, app_nil_r by lia.
  rewrite set_get_vector, (put_event_same _ _ _ Hev). reflexivity.
Qed.

Lemma move_assign_self_live (this : address) (ev : t) (m : memory) :
  events m !! this = Some ev ->
  owns m ev ->
  move_assign this this m
  = Some (tt, put_particles (released (pointers ev) (particles m))
                (put_event this moved_from m)).
Proof.
  intros Hev [Hnodup Hlive].
  unfold pointers in *. rewrite addresses_app in Hnodup, Hlive.
  apply NoDup_app in Hnodup as (Hnd_i & Hdisj & Hnd_f).
  unfold move_assign.
  step_with read_Ex_live. step_with write_Ex_live. step_with write_Ex_live.
  step_with elements_live.
  erewrite bind_Some
    by (eapply delete_each;
        [exact Hnd_i
        | intros a Ha; rewrite !put_event_particles;
          apply Hlive, elem_of_app; left; exact Ha]).
  step_with elements_live.
  erewrite bind_Some
    by (eapply delete_each;
        [exact Hnd_f
        | intros a Ha; simpl particles;
          rewrite released_lookup by (intros Hin; exact (Hdisj a Hin Ha));
          apply Hlive, elem_of_app; right; exact Ha]).
  step_with size_live.
  erewrite bind_Some
    by (apply (resize_same initial_particles this); live_event).
  step_with size_live.
  erewrite bind_Some
    by (apply (resize_same final_particles this); live_event).
  erewrite bind_Some
    by (eapply (copy_pointers_self initial_particles this); live_event).
  erewrite bind_Some
    by (eapply (copy_pointers_self final_particles this); live_event).
  step_with clear_live.
  erewrite clear_live by live_event.
  do 2 f_equal. apply memory_ext.
  - simpl. rewrite released_app. reflexivity.
  - events_agree.
Qed.

(** *** The destructor and the two functions that add a particle *)

Lemma released_gone (ps : list Particle_ptr) :
  forall (h : gmap address Particle) (a : address),
    a ∈ addresses ps -> released ps h !! a = None.
Proof.
  induction ps as [|[b|] ps IH]; intros h a Ha; simpl.
  - apply elem_of_nil in Ha. destruct Ha.
  - rewrite addresses_cons_Some in Ha.
    destruct (decide (a ∈ addresses ps)) as [Hin | Hout].
    + apply IH, Hin.
    + apply elem_of_cons in Ha as [-> | Ha]; [| contradiction].
      rewrite released_lookup by exact Hout. apply lookup_delete_eq.
  - apply IH, Ha.
Qed.

Lemma dtor_live (this : address) (ev : t) (m : memory) :
  events m !! this = Some ev ->
  owns m ev ->
  dtor this m
  = Some (tt, {| particles := released (pointers ev) (particles m);
                 events := delete this (events m) |}).
Proof.
  intros Hev [Hnodup Hlive].
  unfold pointers in *. rewrite addresses_app in Hnodup, Hlive.
  apply NoDup_app in Hnodup as (Hnd_i & Hdisj & Hnd_f).
  unfold dtor.
  step_with elements_live.
  erewrite bind_Some
    by (eapply delete_each;
        [exact Hnd_i
        | intros a Ha; apply Hlive, elem_of_app; left; exact Ha]).
  step_with elements_live.
  erewrite bind_Some
    by (eapply delete_each;
        [exact Hnd_f
        | intros a Ha; simpl particles;
          rewrite released_lookup by (intros Hin; exact (Hdisj a Hin Ha));
          apply Hlive, elem_of_app; right; exact Ha]).
  step_with clear_live. step_with clear_live.
  erewrite destroy_live by live_event.
  do 2 f_equal. apply memory_ext.
  - simpl. rewrite released_app. reflexivity.
  - events_agree.
Qed.

(** X2.  The destructor deletes the particles of its event and no other, and
    ends the event; the other events are left as they were. *)
Theorem dtor_releases_own_particles (this : address) (ev : t) (m : memory) :
  events m !! this = Some ev ->
  owns m ev ->
  exists m' : memory,
    dtor this m = Some (tt, m') /\
    events m' !! this = None /\
    (forall o, o <> this -> events m' !! o = events m !! o) /\
    (forall x, x ∈ addresses (pointers ev) -> particles m' !! x = None) /\
    (forall x, x ∉ addresses (pointers ev) ->
               particles m' !! x = particles m !! x).
Proof.
  intros Hev Hown. eexists. split; [apply (dtor_live this ev m Hev Hown) |].
  simpl. split; [apply lookup_delete_eq |].
  split; [intros o Ho; apply lookup_delete_ne; congruence |].
  split; [intros x Hx; apply released_gone, Hx |].
  intros x Hx. apply released_lookup, Hx.
Qed.

Lemma pointee_put_event (this : address) (ev : t) (m : memory)
  (p : Particle_ptr) :
  pointee (put_event this ev m) p = pointee m p.
Proof. destruct p; reflexivity. Qed.

(** A new particle changes the pointee of no pointer to a live particle. *)
Lemma pointee_alloc (q : address) (x : Particle) (m : memory)
  (p : Particle_ptr) :
  particles m !! q = None ->
  is_Some (pointee m p) ->
  pointee (put_particles (<[q := x]> (particles m)) m) p = pointee m p.
Proof.
  intros Hq [y Hy]. destruct p as [a|]; [| discriminate].
  simpl in *. apply lookup_insert_ne. congruence.
Qed.

Lemma add_particle_live (v : particle_vector) (this : address)
  (p : Particle) (ev : t) (m : memory) :
  events m !! this = Some ev ->
  exists q : address,
    particles m !! q = None /\
    add_particle v this p m
    = Some (tt, put_event this
                  (set_vector v (get_vector v ev ++ [Some q]) ev)
                  (put_particles (<[q := p]> (particles m)) m)).
Proof.
  intros Hev. destruct (new_Particle_fresh p m) as (q & Hrun & Hq).
  exists q. split; [exact Hq |].
  unfold add_particle. rewrite (bind_Some _ _ _ _ _ Hrun).
  apply push_back_live. exact Hev.
Qed.

(** X3.  [add_initial_particle] and [add_final_particle] append a copy of the
    particle to their vector: the values that the event held stay, in their
    order, the new value comes last, and [Ex_], the other vector and the other
    events are unchanged.  The pointers that the vector held stay too, the
    pointer appended designates a particle that was not live before, and it
    is the one particle that the call makes live. *)
Theorem add_particle_appends (v : particle_vector) (this : address)
  (p : Particle) (ev : t) (m : memory) :
  events m !! this = Some ev ->
  readable m ev ->
  exists (m' : memory) (ev' : t),
    add_particle v this p m = Some (tt, m') /\
    events m' !! this = Some ev' /\
    Ex_ ev' = Ex_ ev /\
    pointee m' <$> get_vector v ev'
    = (pointee m <$> get_vector v ev) ++ [Some p] /\
    (forall w, w <> v ->
       pointee m' <$> get_vector w ev' = pointee m <$> get_vector w ev) /\
    (forall o, o <> this -> events m' !! o = events m !! o) /\
    (forall x, is_Some (particles m !! x) ->
               particles m' !! x = particles m !! x) /\
    exists q : address,
      get_vector v ev' = get_vector v ev ++ [Some q] /\
      particles m !! q = None /\
      (forall y, is_Some (particles m' !! y) <->
                 is_Some (particles m !! y) \/ y = q).
Proof.
  intros Hev Hread.
  destruct (add_particle_live v this p ev m Hev) as (q & Hq & Hrun).
  eexists _, _. split; [exact Hrun |].
  split; [apply put_event_lookup |].
  assert (Hkeep : forall w,
            pointee (put_event this
                       (set_vector v (get_vector v ev ++ [Some q]) ev)
                       (put_particles (<[q := p]> (particles m)) m))
              <$> get_vector w ev
            = pointee m <$> get_vector w ev).
  { intros w. apply list_fmap_ext. intros i r Hr.
    rewrite pointee_put_event. apply pointee_alloc; [exact Hq |].
    apply Hread. unfold pointers. apply elem_of_app.
    destruct w; [left | right]; apply (list_elem_of_lookup_2 _ i), Hr. }
  split; [destruct v; reflexivity |].
  split.
  { rewrite get_set_vector, fmap_app, Hkeep. f_equal. simpl.
    rewrite lookup_insert_eq. reflexivity. }
  split.
  { intros w Hw. rewrite get_set_vector_ne by exact Hw. apply Hkeep. }
  split.
  { intros o Ho. rewrite put_event_lookup_ne by congruence. reflexivity. }
  split.
  { intros x [y Hy]. simpl. apply lookup_insert_ne. congruence. }
  exists q. split; [apply get_set_vector |]. split; [exact Hq |].
  intros y. simpl. rewrite lookup_insert_is_Some'.
  split; intros [H | H]; subst; auto.
Qed.

(** *** The accessors *)

(** What a move leaves, for both kinds of move. *)
Lemma move_live (k : move_kind) (this other : address) (m : memory) :
  movable k this other m ->
  exists (m' : memory) (src : t),
    events m !! other = Some src /\
    move k this other m = Some (tt, m') /\
    this <> other /\
    events m' !! other = Some moved_from /\
    events m' !! this = Some src /\
    (forall o, o <> this -> o <> other -> events m' !! o = events m !! o) /\
    forall p : Particle_ptr, p ∈ pointers src -> pointee m' p = pointee m p.
Proof.
  destruct k; simpl.
  - intros [[src Hsrc] Hfree].
    assert (Hne : this <> other) by congruence.
    exists (put_event other moved_from (put_event this src m)), src.
    split; [exact Hsrc |].
    split; [apply move_ctor_live; assumption |].
    split; [exact Hne |].
    split; [apply put_event_lookup |].
    split; [rewrite put_event_lookup_ne by congruence;
            apply put_event_lookup |].
    split; [intros o Ho1 Ho2; rewrite !put_event_lookup_ne by congruence;
            reflexivity |].
    intros p _. rewrite !pointee_put_event. reflexivity.
  - intros (Hne & dst & src & Hdst & Hsrc & Hown & Hshare).
    exists (put_particles (released (pointers dst) (particles m))
              (put_event other moved_from (put_event this src m))), src.
    split; [exact Hsrc |].
    split; [apply (move_assign_live this other src dst); assumption |].
    split; [exact Hne |].
    split; [rewrite put_particles_events; apply put_event_lookup |].
    split; [rewrite put_particles_events, put_event_lookup_ne by congruence;
            apply put_event_lookup |].
    split; [intros o Ho1 Ho2;
            rewrite put_particles_events, !put_event_lookup_ne by congruence;
            reflexivity |].
    intros p Hp. destruct p as [a|]; [| reflexivity].
    simpl. apply released_lookup, Hshare, elem_of_addresses, Hp.
Qed.

(** X4.  The four accessors of an event made by [Event(a, b, c, d, Ex)] return
    [a], [b], [c] and [d], in the order projectile, target, ejectile, residue,
    and leave the memory as it is. *)
Theorem accessors_return_constructor_arguments
  (this : address) (a b c d : Particle) (Ex : double) (m : memory) :
  events m !! this = None ->
  exists m' : memory,
    ctor_2_to_2 this a b c d Ex m = Some (tt, m') /\
    projectile this m' = Some (returned a, m') /\
    target this m' = Some (returned b, m') /\
    ejectile this m' = Some (returned c, m') /\
    residue this m' = Some (returned d, m').
Proof.
  intros Hfree.
  destruct (ctor_2_to_2_live this a b c d Ex m Hfree)
    as (m' & ev & Hrun & Hev & _ & _ & Hvalues & _).
  exists m'. split; [exact Hrun |].
  unfold particle_values in Hvalues. rewrite Hev in Hvalues.
  injection Hvalues as Hinitial Hfinal.
  unfold projectile, target, ejectile, residue.
  rewrite !(particle_at_live _ this _ ev m' Hev). simpl.
  rewrite Hinitial, Hfinal. repeat split.
Qed.

(** X5.  After a move, every accessor of the moved-from event throws
    [std::out_of_range], and every accessor of the destination gives what the
    same accessor of the source gave before the move. *)
Theorem accessors_after_move
  (k : move_kind) (this other : address) (m : memory) :
  movable k this other m ->
  exists m' : memory,
    move k this other m = Some (tt, m') /\
    (forall v i, particle_at v other i m' = Some (thrown out_of_range, m')) /\
    (forall v i,
       fst <$> particle_at v this i m' = fst <$> particle_at v other i m).
Proof.
  intros Hmovable.
  destruct (move_live k this other m Hmovable)
    as (m' & src & Hsrc & Hrun & Hne & Hother & Hthis & _ & Hsame).
  exists m'. split; [exact Hrun |]. split.
  - intros v i. rewrite (particle_at_live v other i moved_from m' Hother).
    destruct v; reflexivity.
  - intros v i.
    rewrite (particle_at_live v this i src m' Hthis).
    rewrite (particle_at_live v other i src m Hsrc).
    assert (Heq : pointee m' <$> get_vector v src
                  = pointee m <$> get_vector v src).
    { apply list_fmap_ext. intros j p Hp. apply Hsame.
      unfold pointers. apply elem_of_app.
      destruct v; [left | right]; apply (list_elem_of_lookup_2 _ j), Hp. }
    rewrite Heq.
    destruct ((pointee m <$> get_vector v src) !! i) as [[x|]|];
      reflexivity.
Qed.

(** X6.  Moving an event away and moving it back by assignment restores it:
    the source holds the pointers, the particle values and [Ex_] that it held,
    and the event that it moved through is left empty. *)
Theorem move_there_and_back
  (k : move_kind) (this other : address) (m : memory) :
  movable k this other m ->
  exists m' m'' : memory,
    move k this other m = Some (tt, m') /\
    move_assign other this m' = Some (tt, m'') /\
    events m'' !! other = events m !! other /\
    events m'' !! this = Some moved_from /\
    particle_values m'' other = particle_values m other.
Proof.
  intros Hmovable.
  destruct (move_live k this other m Hmovable)
    as (m' & src & Hsrc & Hrun & Hne & Hother & Hthis & _ & Hsame).
  assert (Hown : owns m' moved_from).
  { split; [apply NoDup_nil_2 |]. intros a Ha.
    apply elem_of_nil in Ha. destruct Ha. }
  exists m'. eexists. split; [exact Hrun |].
  split.
  { apply (move_assign_live other this src moved_from m');
      [congruence | exact Hother | exact Hthis | exact Hown]. }
  assert (Hback : events
                    (put_particles (released (pointers moved_from)
                                      (particles m'))
                       (put_event this moved_from (put_event other src m')))
                    !! other = Some src)
    by (rewrite put_particles_events, put_event_lookup_ne by congruence;
        apply put_event_lookup).
  split; [rewrite Hback, Hsrc; reflexivity |].
  split; [rewrite put_particles_events; apply put_event_lookup |].
  unfold particle_values. rewrite Hback, Hsrc. f_equal.
  f_equal; apply list_fmap_ext; intros i p Hp;
    (transitivity (pointee m' p);
     [destruct p; reflexivity
     | apply Hsame; unfold pointers; apply elem_of_app;
       first [left; apply (list_elem_of_lookup_2 _ i), Hp
             | right; apply (list_elem_of_lookup_2 _ i), Hp]]).
Qed.

(** *** Output *)

Lemma deref_each_live (ps : list Particle_ptr) (m : memory) :
  (forall p, p ∈ ps -> is_Some (pointee m p)) ->
  exists ys : list Particle,
    deref_each ps m = Some (ys, m) /\
    length ys = length ps /\
    Some <$> ys = pointee m <$> ps.
Proof.
  induction ps as [|p ps IH]; intros Hlive.
  - exists []. repeat split.
  - destruct (Hlive p) as [x Hx]; [left |].
    destruct IH as (ys & Hrun & Hlen & Hval).
    { intros p' Hp'. apply Hlive. right. exact Hp'. }
    exists (x :: ys). simpl.
    rewrite (bind_Some _ _ _ _ _ (deref_Particle_live p x m Hx)).
    rewrite (bind_Some _ _ _ _ _ Hrun).
    split; [reflexivity |]. split; [simpl; congruence |].
    change (Some x :: (Some <$> ys) = pointee m p :: (pointee m <$> ps)).
    rewrite Hx, Hval. reflexivity.
Qed.

Lemma lines_app (xs ys : list token) : lines (xs ++ ys) = (lines xs + lines ys)%nat.
Proof. unfold lines. rewrite List.filter_app, length_app. reflexivity. Qed.

Lemma records_app (s : String.string) (xs ys : list token) :
  records s (xs ++ ys) = (records s xs + records s ys)%nat.
Proof. unfold records. rewrite List.filter_app, length_app. reflexivity. Qed.

Lemma lines_concat_records (f : Particle -> list token) (ys : list Particle) :
  (forall y, lines (f y) = 1%nat) ->
  lines (List.concat (map f ys)) = length ys.
Proof.
  intros Hone. induction ys as [|y ys IH]; [reflexivity |].
  simpl. rewrite lines_app, Hone, IH. reflexivity.
Qed.

Lemma records_concat (s : String.string) (f : Particle -> list token)
  (n : nat) (ys : list Particle) :
  (forall y, records s (f y) = n) ->
  records s (List.concat (map f ys)) = (length ys * n)%nat.
Proof.
  intros Hn. induction ys as [|y ys IH]; [reflexivity |].
  simpl. rewrite records_app, Hn, IH. reflexivity.
Qed.

(** X7.  An event whose vector of initial particles is empty, as a moved-from
    event is: [print] inserts nothing and returns, whatever the final
    particles are; [write_hepevt] inserts the header line, which announces one
    particle more than there are final particles, and then throws
    [std::out_of_range]. *)
Theorem output_without_initial_particles
  (event_num : nat) (this : address) (ev : t) (m : memory) :
  events m !! this = Some ev ->
  initial_particles_ ev = [] ->
  print this m = Some ({| written := []; raised := None |}, m) /\
  write_hepevt event_num this m
  = Some ({| written :=
               [put_setprecision 16; put_scientific;
                put_size event_num; put_char space;
                put_size (length (final_particles_ ev) + 1);
                put_char newline];
             raised := Some out_of_range |}, m).
Proof.
  intros Hev Hempty. split.
  - unfold print.
    rewrite (bind_Some _ _ _ _ _ (elements_live initial_particles this ev m Hev)).
    simpl. rewrite Hempty. reflexivity.
  - unfold write_hepevt.
    rewrite (bind_Some _ _ _ _ _ (size_live final_particles this ev m Hev)).
    erewrite bind_Some
      by (rewrite (particle_at_live initial_particles this _ ev m Hev);
          simpl; rewrite Hempty; reflexivity).
    reflexivity.
Qed.

(** X8.  For an event that has a projectile and whose pointers all designate
    particles, [write_hepevt] throws nothing and leaves the memory as it is.
    What it inserts is exactly the header line, then the record of the
    particle that [projectile()] returns, with status 0, then the record of
    each final particle, in the order of the vector, with status 1, and
    nothing else: no record is written for the target or for any further
    initial particle.  The header announces one particle more than there are
    final particles, which is the number of records. *)
Theorem write_hepevt_lines
  (event_num : nat) (this : address) (ev : t) (m : memory) :
  events m !! this = Some ev ->
  readable m ev ->
  initial_particles_ ev <> [] ->
  exists (out : insertion) (x : Particle) (ys : list Particle),
    write_hepevt event_num this m = Some (out, m) /\
    raised out = None /\
    projectile this m = Some (returned x, m) /\
    pointee m <$> final_particles_ ev = Some <$> ys /\
    written out
    = [put_setprecision 16; put_scientific;
       put_size event_num; put_char space;
       put_size (length (final_particles_ ev) + 1); put_char newline]
      ++ dump_hepevt_particle x false
      ++ List.concat (map (fun y => dump_hepevt_particle y true) ys) /\
    written out !! 4%nat
    = Some (put_size (length (final_particles_ ev) + 1)) /\
    lines (written out) = S (length (final_particles_ ev) + 1) /\
    records (status_text false) (written out) = 1%nat /\
    records (status_text true) (written out) = length (final_particles_ ev).
Proof.
  intros Hev Hread Hinitial.
  destruct (initial_particles_ ev) as [|p0 ps0] eqn:Hps; [congruence |].
  destruct (Hread p0) as [x Hx].
  { unfold pointers. rewrite Hps. left. }
  destruct (deref_each_live (final_particles_ ev) m)
    as (ys & Hys & Hlen & Hval).
  { intros p Hp. apply Hread. unfold pointers. apply elem_of_app.
    right. exact Hp. }
  assert (Hproj : particle_at initial_particles this PROJECTILE_INDEX m
                  = Some (returned x, m)).
  { rewrite (particle_at_live initial_particles this _ ev m Hev).
    simpl. rewrite Hps. simpl. rewrite Hx. reflexivity. }
  eexists _, x, ys. unfold write_hepevt.
  rewrite (bind_Some _ _ _ _ _ (size_live final_particles this ev m Hev)).
  rewrite (bind_Some _ _ _ _ _ Hproj).
  cbv beta iota.
  rewrite (bind_Some _ _ _ _ _
             (elements_live final_particles this ev m Hev)).
  simpl get_vector. rewrite (bind_Some _ _ _ _ _ Hys).
  split; [reflexivity |]. split; [reflexivity |].
  split; [exact Hproj |]. split; [symmetry; exact Hval |].
  split; [reflexivity |]. split; [reflexivity |].
  cbn [written].
  rewrite !lines_app, !records_app.
  rewrite (lines_concat_records _ ys) by reflexivity.
  rewrite (records_concat (status_text false) _ 0 ys) by reflexivity.
  rewrite (records_concat (status_text true) _ 1 ys) by reflexivity.
  rewrite Hlen.
  change (lines [put_setprecision 16; put_scientific; put_size event_num;
                 put_char space;
                 put_size (length (final_particles_ ev) + 1);
                 put_char newline]) with 1%nat.
  change (lines (dump_hepevt_particle x false)) with 1%nat.
  change (records (status_text false) (dump_hepevt_particle x false)) with 1%nat.
  change (records (status_text true) (dump_hepevt_particle x false)) with 0%nat.
  simpl. repeat split; lia.
Qed.

(** X9.  For such an event [print] throws nothing and leaves the memory as it
    is.  What it inserts is exactly the particle that [projectile()] returns
    and a line end, then each final particle, in the order of the vector,
    with a line end after each, and nothing else: the target and any further
    initial particle are not printed. *)
Theorem print_lines (this : address) (ev : t) (m : memory) :
  events m !! this = Some ev ->
  readable m ev ->
  initial_particles_ ev <> [] ->
  exists (out : insertion) (x : Particle) (ys : list Particle),
    print this m = Some (out, m) /\
    raised out = None /\
    projectile this m = Some (returned x, m) /\
    pointee m <$> final_particles_ ev = Some <$> ys /\
    written out
    = [put_Particle x; put_char newline]
      ++ List.concat (map (fun y => [put_Particle y; put_char newline]) ys) /\
    written out !! 0%nat = Some (put_Particle x) /\
    lines (written out) = S (length (final_particles_ ev)).
Proof.
  intros Hev Hread Hinitial.
  destruct (initial_particles_ ev) as [|p0 ps0] eqn:Hps; [congruence |].
  destruct (Hread p0) as [x Hx].
  { unfold pointers. rewrite Hps. left. }
  destruct (deref_each_live (final_particles_ ev) m)
    as (ys & Hys & Hlen & Hval).
  { intros p Hp. apply Hread. unfold pointers. apply elem_of_app.
    right. exact Hp. }
  assert (Hproj : particle_at initial_particles this PROJECTILE_INDEX m
                  = Some (returned x, m)).
  { rewrite (particle_at_live initial_particles this _ ev m Hev).
    simpl. rewrite Hps. simpl. rewrite Hx. reflexivity. }
  eexists _, x, ys. unfold print.
  rewrite (bind_Some _ _ _ _ _
             (elements_live initial_particles this ev m Hev)).
  change (get_vector initial_particles ev) with (initial_particles_ ev).
  rewrite Hps, decide_False by discriminate.
  rewrite (bind_Some _ _ _ _ _ Hproj). cbv beta iota.
  rewrite (bind_Some _ _ _ _ _
             (elements_live final_particles this ev m Hev)).
  simpl get_vector. rewrite (bind_Some _ _ _ _ _ Hys).
  split; [reflexivity |]. split; [reflexivity |].
  split; [exact Hproj |]. split; [symmetry; exact Hval |].
  split; [reflexivity |]. split; [reflexivity |].
  cbn [written]. rewrite lines_app.
  rewrite (lines_concat_records _ ys) by reflexivity.
  rewrite Hlen. reflexivity.
Qed.

(** *** Copies *)

Lemma take_S_insert {A : Type} (l ys : list A) (k : nat) (x : A) :
  (k < length l)%nat ->
  take (S k) (<[k := x]> l) ++ ys = take k l ++ x :: ys.
Proof.
  intros Hk.
  rewrite (take_S_r _ _ x) by (apply list_lookup_insert_eq; exact Hk).
  rewrite take_insert_ge by lia.
  rewrite <- app_assoc. reflexivity.
Qed.

(** Copying the particles at the indices [k, k+n): the new particles are at
    addresses that held nothing, one for each index; they hold the values
    of the source, in order; no other particle changes. *)
Lemma copy_particles_loop (v : particle_vector) (this other : address)
  (src : t) (n : nat) :
  forall (k : nat) (dst : t) (m : memory),
    this <> other ->
    events m !! other = Some src ->
    events m !! this = Some dst ->
    length (get_vector v dst) = length (get_vector v src) ->
    (k + n)%nat = length (get_vector v src) ->
    (forall p, p ∈ get_vector v src -> is_Some (pointee m p)) ->
    exists (qs : list address) (h' : gmap address Particle),
      for_each (fun i => p ← read_at v other i;
                         x ← deref_Particle p;
                         q ← new_Particle x;
                         write_at v this i q) (seq k n) m
      = Some (tt, put_event this
                    (set_vector v
                       (take k (get_vector v dst) ++ (Some <$> qs)) dst)
                    (put_particles h' m)) /\
      length qs = n /\
      NoDup qs /\
      (forall q, q ∈ qs -> particles m !! q = None) /\
      (forall y, is_Some (particles m !! y) -> h' !! y = particles m !! y) /\
      (fun q => h' !! q) <$> qs
      = pointee m <$> drop k (get_vector v src) /\
      (forall y, is_Some (h' !! y) -> is_Some (particles m !! y) \/ y ∈ qs).
Proof.
  induction n as [|n IH]; intros k dst m Hne Hsrc Hdst Hlen Hk Hlive.
  - exists [], (particles m). simpl. rewrite app_nil_r.
    rewrite take_ge, set_get_vector by lia.
    rewrite put_particles_same, (put_event_same _ _ _ Hdst).
    rewrite drop_ge by lia.
    repeat split; try reflexivity; try apply NoDup_nil_2; auto.
    intros q Hq. apply elem_of_nil in Hq. destruct Hq.
  - destruct (lookup_lt_is_Some_2 (get_vector v src) k) as [p Hp]; [lia |].
    destruct (Hlive p) as [x Hx]; [apply (list_elem_of_lookup_2 _ k), Hp |].
    destruct (new_Particle_fresh x m) as (q & Hnew & Hq).
    assert (Hkd : (k < length (get_vector v dst))%nat) by lia.
    set (dst1 := set_vector v (<[k := Some q]> (get_vector v dst)) dst).
    set (m1 := put_event this dst1
                 (put_particles (<[q := x]> (particles m)) m)).
    assert (Hbody : (p ← read_at v other k;
                     x ← deref_Particle p;
                     q ← new_Particle x;
                     write_at v this k q) m = Some (tt, m1)).
    { rewrite (bind_Some _ _ _ _ _ (read_at_live v other k p src m Hsrc Hp)).
      rewrite (bind_Some _ _ _ _ _ (deref_Particle_live p x m Hx)).
      rewrite (bind_Some _ _ _ _ _ Hnew).
      apply write_at_live; [exact Hdst | lia]. }
    assert (Hkeep : forall r, is_Some (pointee m r) ->
                              pointee m1 r = pointee m r).
    { intros r Hr. unfold m1. rewrite pointee_put_event.
      apply pointee_alloc; assumption. }
    destruct (IH (S k) dst1 m1) as (qs & h' & Hrun & Hqs & Hnd & Hfresh
                                    & Hold & Hval & Honly).
    { exact Hne. }
    { unfold m1. rewrite put_event_lookup_ne by exact Hne. exact Hsrc. }
    { apply put_event_lookup. }
    { unfold dst1. rewrite get_set_vector, length_insert. exact Hlen. }
    { lia. }
    { intros r Hr. rewrite Hkeep by (apply Hlive, Hr). apply Hlive, Hr. }
    assert (Hq1 : particles m1 !! q = Some x) by apply lookup_insert_eq.
    exists (q :: qs), h'. split; [| split; [| split; [| split; [| split;
      [| split]]]]].
    + simpl seq. simpl for_each. rewrite (bind_Some _ _ _ _ _ Hbody).
      rewrite Hrun. do 2 f_equal. apply memory_ext; [reflexivity |].
      intros a. unfold m1, put_event, put_particles; simpl.
      rewrite insert_insert_eq. f_equal. f_equal.
      unfold dst1. rewrite set_set_vector, get_set_vector. f_equal.
      apply take_S_insert, Hkd.
    + simpl. lia.
    + apply NoDup_cons. split; [| exact Hnd].
      intros Hin. apply Hfresh in Hin. congruence.
    + intros y Hy. apply elem_of_cons in Hy as [-> | Hy]; [exact Hq |].
      apply Hfresh in Hy. unfold m1 in Hy. simpl in Hy.
      apply lookup_insert_None in Hy. tauto.
    + intros y [z Hz]. rewrite Hold.
      * unfold m1. simpl. apply lookup_insert_ne. congruence.
      * unfold m1. simpl. rewrite lookup_insert_ne by congruence. eauto.
    + rewrite (drop_S _ _ _ Hp). rewrite !fmap_cons. f_equal.
      * rewrite Hold by (rewrite Hq1; eauto). rewrite Hq1, Hx. reflexivity.
      * rewrite Hval. apply list_fmap_ext. intros i r Hr.
        apply Hkeep, Hlive. rewrite lookup_drop in Hr.
        apply (list_elem_of_lookup_2 _ _ _ Hr).
    + intros y Hy. destruct (Honly y Hy) as [Hy1 | Hy1].
      * unfold m1 in Hy1. simpl in Hy1.
        destruct (decide (q = y)) as [-> | Hqy]; [right; left |].
        rewrite lookup_insert_ne in Hy1 by exact Hqy. left. exact Hy1.
      * right. right. exact Hy1.
Qed.

Lemma addresses_Some (qs : list address) : addresses (Some <$> qs) = qs.
Proof.
  induction qs as [|q qs IH]; [reflexivity |].
  rewrite fmap_cons, addresses_cons_Some, IH. reflexivity.
Qed.

Lemma pointee_Some (m : memory) (qs : list address) :
  pointee m <$> (Some <$> qs) = (fun q => particles m !! q) <$> qs.
Proof. rewrite <- list_fmap_compose. reflexivity. Qed.

(** Where two lists of options agree and the one holds values only, so does
    the other. *)
Lemma all_Some_of_fmap {A B C : Type} (f : A -> option C) (g : B -> option C)
  (xs : list A) (ys : list B) :
  f <$> xs = g <$> ys ->
  (forall y, y ∈ ys -> is_Some (g y)) ->
  forall x, x ∈ xs -> is_Some (f x).
Proof.
  intros Heq Hys x Hx.
  apply list_elem_of_lookup in Hx as [i Hi].
  assert (Hfi : (f <$> xs) !! i = Some (f x))
    by (rewrite list_lookup_fmap, Hi; reflexivity).
  rewrite Heq, list_lookup_fmap in Hfi.
  destruct (ys !! i) as [y|] eqn:Hy; [| discriminate].
  injection Hfi as <-. apply Hys, (list_elem_of_lookup_2 _ i), Hy.
Qed.

Lemma copy_particles_live (v : particle_vector) (this other : address)
  (src dst : t) (m : memory) :
  this <> other ->
  events m !! other = Some src ->
  events m !! this = Some dst ->
  length (get_vector v dst) = length (get_vector v src) ->
  (forall p, p ∈ get_vector v src -> is_Some (pointee m p)) ->
  exists (qs : list address) (h' : gmap address Particle),
    copy_particles v this other m
    = Some (tt, put_event this (set_vector v (Some <$> qs) dst)
                  (put_particles h' m)) /\
    NoDup qs /\
    (forall q, q ∈ qs -> particles m !! q = None) /\
    (forall q, q ∈ qs -> is_Some (h' !! q)) /\
    (forall y, is_Some (particles m !! y) -> h' !! y = particles m !! y) /\
    (fun q => h' !! q) <$> qs = pointee m <$> get_vector v src /\
    (forall y, is_Some (h' !! y) -> is_Some (particles m !! y) \/ y ∈ qs).
Proof.
  intros Hne Hsrc Hdst Hlen Hlive.
  destruct (copy_particles_loop v this other src (length (get_vector v src))
              0%nat dst m Hne Hsrc Hdst Hlen eq_refl Hlive)
    as (qs & h' & Hrun & _ & Hnd & Hfresh & Hold & Hval & Honly).
  exists qs, h'. unfold copy_particles.
  rewrite (bind_Some _ _ _ _ _ (size_live v other src m Hsrc)).
  split; [exact Hrun |]. split; [exact Hnd |]. split; [exact Hfresh |].
  split; [| split; [exact Hold | split; [exact Hval | exact Honly]]].
  exact (all_Some_of_fmap _ _ _ _ Hval Hlive).
Qed.

(** The two copy loops, one after the other. *)
Lemma copy_both_live (this other : address) (src d0 : t) (m : memory) :
  this <> other ->
  events m !! other = Some src ->
  events m !! this = Some d0 ->
  length (initial_particles_ d0) = length (initial_particles_ src) ->
  length (final_particles_ d0) = length (final_particles_ src) ->
  readable m src ->
  exists (qi qf : list address) (h' : gmap address Particle),
    (copy_particles initial_particles this other;;
     copy_particles final_particles this other) m
    = Some (tt, put_event this
                  {| initial_particles_ := Some <$> qi;
                     final_particles_ := Some <$> qf;
                     Ex_ := Ex_ d0 |}
                  (put_particles h' m)) /\
    NoDup (qi ++ qf) /\
    (forall q, q ∈ qi ++ qf -> particles m !! q = None) /\
    (forall q, q ∈ qi ++ qf -> is_Some (h' !! q)) /\
    (forall y, is_Some (particles m !! y) -> h' !! y = particles m !! y) /\
    (fun q => h' !! q) <$> qi = pointee m <$> initial_particles_ src /\
    (fun q => h' !! q) <$> qf = pointee m <$> final_particles_ src /\
    (forall y, is_Some (h' !! y) ->
               is_Some (particles m !! y) \/ y ∈ qi ++ qf).
Proof.
  intros Hne Hsrc Hd0 Hlen_i Hlen_f Hread.
  destruct (copy_particles_live initial_particles this other src d0 m)
    as (qi & h1 & Hrun1 & Hnd1 & Hfresh1 & Hnew1 & Hold1 & Hval1 & Honly1);
    [exact Hne | exact Hsrc | exact Hd0 | exact Hlen_i | |].
  { intros p Hp. apply Hread.
    unfold pointers. apply elem_of_app. left. exact Hp. }
  set (d1 := set_vector initial_particles (Some <$> qi) d0) in *.
  set (m1 := put_event this d1 (put_particles h1 m)) in *.
  assert (Hkeep1 : forall p, is_Some (pointee m p) ->
                             pointee m1 p = pointee m p).
  { intros [a|] Hp; [| reflexivity]. simpl in *. apply Hold1, Hp. }
  destruct (copy_particles_live final_particles this other src d1 m1)
    as (qf & h2 & Hrun2 & Hnd2 & Hfresh2 & Hnew2 & Hold2 & Hval2 & Honly2).
  { exact Hne. }
  { unfold m1. rewrite put_event_lookup_ne by exact Hne. exact Hsrc. }
  { apply put_event_lookup. }
  { exact Hlen_f. }
  { intros p Hp.
    assert (Hlive : is_Some (pointee m p))
      by (apply Hread; unfold pointers; apply elem_of_app; right; exact Hp).
    rewrite Hkeep1; assumption. }
  simpl in Hfresh1, Hold1, Hfresh2, Hold2, Honly1, Honly2.
  exists qi, qf, h2. split; [| split; [| split; [| split; [| split;
    [| split; [| split]]]]]].
  - rewrite (bind_Some _ _ _ _ _ Hrun1). fold d1. fold m1.
    rewrite Hrun2. do 2 f_equal. apply memory_ext; [reflexivity |].
    unfold m1. events_agree.
  - apply NoDup_app. split; [exact Hnd1 |]. split; [| exact Hnd2].
    intros q Hq1 Hq2. apply Hnew1 in Hq1 as [z Hz].
    apply Hfresh2 in Hq2. congruence.
  - intros q Hq. apply elem_of_app in Hq as [Hq | Hq].
    + apply Hfresh1, Hq.
    + apply Hfresh2 in Hq.
      destruct (particles m !! q) as [z|] eqn:Hz; [| reflexivity].
      rewrite Hold1 in Hq by eauto. congruence.
  - intros q Hq. apply elem_of_app in Hq as [Hq | Hq].
    + rewrite Hold2 by (apply Hnew1, Hq). apply Hnew1, Hq.
    + apply Hnew2, Hq.
  - intros y Hy. rewrite Hold2 by (rewrite Hold1; exact Hy).
    apply Hold1, Hy.
  - transitivity ((fun q => h1 !! q) <$> qi); [| exact Hval1].
    apply list_fmap_ext. intros i q Hq.
    apply Hold2, Hnew1, (list_elem_of_lookup_2 _ i), Hq.
  - rewrite Hval2. apply list_fmap_ext. intros i p Hp.
    apply Hkeep1, Hread. unfold pointers. apply elem_of_app. right.
    apply (list_elem_of_lookup_2 _ i), Hp.
  - intros y Hy. rewrite elem_of_app.
    destruct (Honly2 y Hy) as [Hy1 | Hy2]; [| tauto].
    destruct (Honly1 y Hy1) as [Hy0 | Hy0]; tauto.
Qed.

Lemma readable_put_event (this : address) (ev src : t) (m : memory) :
  readable m src -> readable (put_event this ev m) src.
Proof. intros Hread p Hp. rewrite pointee_put_event. apply Hread, Hp. Qed.

Lemma copy_ctor_live (this other : address) (src : t) (m : memory) :
  events m !! other = Some src ->
  readable m src ->
  events m !! this = None ->
  exists (qi qf : list address) (h' : gmap address Particle),
    copy_ctor this other m
    = Some (tt, put_event this
                  {| initial_particles_ := Some <$> qi;
                     final_particles_ := Some <$> qf;
                     Ex_ := Ex_ src |}
                  (put_particles h' m)) /\
    NoDup (qi ++ qf) /\
    (forall q, q ∈ qi ++ qf -> particles m !! q = None) /\
    (forall q, q ∈ qi ++ qf -> is_Some (h' !! q)) /\
    (forall y, is_Some (particles m !! y) -> h' !! y = particles m !! y) /\
    (fun q => h' !! q) <$> qi = pointee m <$> initial_particles_ src /\
    (fun q => h' !! q) <$> qf = pointee m <$> final_particles_ src /\
    (forall y, is_Some (h' !! y) ->
               is_Some (particles m !! y) \/ y ∈ qi ++ qf).
Proof.
  intros Hsrc Hread Hfree.
  assert (Hne : this <> other) by congruence.
  set (d0 := {| initial_particles_ :=
                  replicate (length (initial_particles_ src)) nullptr;
                final_particles_ :=
                  replicate (length (final_particles_ src)) nullptr;
                Ex_ := Ex_ src |}).
  destruct (copy_both_live this other src d0 (put_event this d0 m))
    as (qi & qf & h' & Hrun & Hrest).
  { exact Hne. }
  { rewrite put_event_lookup_ne by exact Hne. exact Hsrc. }
  { apply put_event_lookup. }
  { apply length_replicate. }
  { apply length_replicate. }
  { apply readable_put_event, Hread. }
  exists qi, qf, h'. split.
  - unfold copy_ctor.
    step_with size_live. step_with size_live. step_with read_Ex_live.
    erewrite bind_Some by (apply construct_free; exact Hfree).
    change (get_vector initial_particles src) with (initial_particles_ src).
    change (get_vector final_particles src) with (final_particles_ src).
    fold d0. rewrite Hrun. do 2 f_equal.
    apply memory_ext; [reflexivity |]. events_agree.
  - destruct Hrest as (Hnd & Hfresh & Hnew & Hold & Hvi & Hvf & Honly).
    repeat split; assumption.
Qed.

Lemma readable_addresses (m : memory) (ev : t) (x : address) :
  readable m ev -> x ∈ addresses (pointers ev) -> is_Some (particles m !! x).
Proof.
  intros Hread Hx. apply list_elem_of_omap in Hx as (p & Hp & Hpx).
  simpl in Hpx. subst p. exact (Hread (Some x) Hp).
Qed.

(** X10.  The copy constructor makes a deep copy: the new event holds new
    particles with the values of the source's, in the same order, and the same
    [Ex_]; it owns them and shares none with the source; the source and every
    particle that was live are left as they were.  None of the particles of
    the new event was live before, and they are the only particles that the
    call makes live. *)
Theorem copy_ctor_deep_copy (this other : address) (src : t) (m : memory) :
  events m !! other = Some src ->
  readable m src ->
  events m !! this = None ->
  exists (m' : memory) (new : t),
    copy_ctor this other m = Some (tt, m') /\
    events m' !! this = Some new /\
    Ex_ new = Ex_ src /\
    particle_values m' this = particle_values m other /\
    events m' !! other = Some src /\
    particle_values m' other = particle_values m other /\
    owns m' new /\
    (forall x, x ∈ addresses (pointers new) ->
               x ∉ addresses (pointers src)) /\
    (forall y, is_Some (particles m !! y) ->
               particles m' !! y = particles m !! y) /\
    (forall x, x ∈ addresses (pointers new) -> particles m !! x = None) /\
    (forall y, is_Some (particles m' !! y) <->
               is_Some (particles m !! y) \/ y ∈ addresses (pointers new)).
Proof.
  intros Hsrc Hread Hfree.
  assert (Hne : this <> other) by congruence.
  destruct (copy_ctor_live this other src m Hsrc Hread Hfree)
    as (qi & qf & h' & Hrun & Hnd & Hfresh & Hnew & Hold & Hvi & Hvf & Hfrom).
  eexists _, _. split; [exact Hrun |].
  split; [apply put_event_lookup |].
  split; [reflexivity |].
  assert (Hother : events
                     (put_event this
                        {| initial_particles_ := Some <$> qi;
                           final_particles_ := Some <$> qf;
                           Ex_ := Ex_ src |} (put_particles h' m))
                     !! other = Some src)
    by (rewrite put_event_lookup_ne by exact Hne; exact Hsrc).
  assert (Hkeep : forall p, p ∈ pointers src ->
                    pointee (put_event this
                               {| initial_particles_ := Some <$> qi;
                                  final_particles_ := Some <$> qf;
                                  Ex_ := Ex_ src |} (put_particles h' m)) p
                    = pointee m p).
  { intros [a|] Hp; [| reflexivity]. simpl. apply Hold.
    exact (Hread (Some a) Hp). }
  split.
  { unfold particle_values. rewrite put_event_lookup, Hsrc. simpl.
    rewrite !pointee_Some. simpl. rewrite Hvi, Hvf. reflexivity. }
  split; [exact Hother |].
  split.
  { unfold particle_values. rewrite Hother, Hsrc. f_equal.
    f_equal; apply list_fmap_ext; intros i p Hp; apply Hkeep;
      unfold pointers; apply elem_of_app;
      first [left; apply (list_elem_of_lookup_2 _ i), Hp
            | right; apply (list_elem_of_lookup_2 _ i), Hp]. }
  split.
  { unfold owns, pointers. simpl.
    rewrite addresses_app, !addresses_Some. split; [exact Hnd |].
    intros a Ha. apply Hnew, Ha. }
  split.
  { unfold pointers at 1. simpl.
    rewrite addresses_app, !addresses_Some. intros x Hx Hsx.
    apply Hfresh in Hx.
    destruct (readable_addresses m src x Hread Hsx) as [z Hz]. congruence. }
  split.
  { intros y Hy. simpl. apply Hold, Hy. }
  split.
  { unfold pointers at 1. simpl.
    rewrite addresses_app, !addresses_Some. exact Hfresh. }
  intros y. unfold pointers at 1. simpl.
  rewrite addresses_app, !addresses_Some. split.
  - apply Hfrom.
  - intros [Hy | Hy]; [rewrite (Hold y Hy); exact Hy | apply Hnew, Hy].
Qed.

(** X11.  Copying an event and destroying the copy leaves the memory exactly
    as it was before the copy. *)
Theorem copy_then_destroy_restores (this other : address) (src : t)
  (m : memory) :
  events m !! other = Some src ->
  readable m src ->
  events m !! this = None ->
  exists m' : memory,
    copy_ctor this other m = Some (tt, m') /\
    dtor this m' = Some (tt, m).
Proof.
  intros Hsrc Hread Hfree.
  destruct (copy_ctor_live this other src m Hsrc Hread Hfree)
    as (qi & qf & h' & Hrun & Hnd & Hfresh & Hnew & Hold & _ & _ & Honly).
  eexists. split; [exact Hrun |].
  erewrite dtor_live; [| apply put_event_lookup |].
  - do 2 f_equal. apply memory_ext; simpl.
    + unfold pointers. simpl. apply map_eq. intros y.
      destruct (decide (y ∈ qi ++ qf)) as [Hin | Hout].
      * rewrite released_gone
          by (rewrite addresses_app, !addresses_Some; exact Hin).
        symmetry. apply Hfresh, Hin.
      * rewrite released_lookup
          by (rewrite addresses_app, !addresses_Some; exact Hout).
        destruct (particles m !! y) as [z|] eqn:Hz.
        -- rewrite <- Hz. apply Hold. rewrite Hz. eauto.
        -- destruct (h' !! y) as [z|] eqn:Hz'; [| reflexivity].
           destruct (Honly y) as [[w Hw] | Hy]; [eauto | congruence |].
           contradiction.
    + intros a. rewrite delete_insert_eq.
      destruct (decide (a = this)) as [-> | Ha].
      * rewrite lookup_delete_eq, Hfree. reflexivity.
      * rewrite lookup_delete_ne by congruence. reflexivity.
  - unfold owns, pointers. simpl.
    rewrite addresses_app, !addresses_Some. split; [exact Hnd |].
    intros a Ha. apply Hnew, Ha.
Qed.

Lemma copy_assign_live (this other : address) (src dst : t) (m : memory) :
  this <> other ->
  events m !! this = Some dst ->
  events m !! other = Some src ->
  owns m dst ->
  readable m src ->
  (forall a, a ∈ addresses (pointers src) -> a ∉ addresses (pointers dst)) ->
  exists (qi qf : list address) (h' : gmap address Particle),
    copy_assign this other m
    = Some (tt, put_event this
                  {| initial_particles_ := Some <$> qi;
                     final_particles_ := Some <$> qf;
                     Ex_ := Ex_ src |}
                  (put_particles h' m)) /\
    NoDup (qi ++ qf) /\
    (forall q, q ∈ qi ++ qf ->
               released (pointers dst) (particles m) !! q = None) /\
    (forall q, q ∈ qi ++ qf -> is_Some (h' !! q)) /\
    (forall y, is_Some (released (pointers dst) (particles m) !! y) ->
               h' !! y = particles m !! y) /\
    (fun q => h' !! q) <$> qi = pointee m <$> initial_particles_ src /\
    (fun q => h' !! q) <$> qf = pointee m <$> final_particles_ src /\
    (forall y, is_Some (h' !! y) ->
               is_Some (released (pointers dst) (particles m) !! y)
               \/ y ∈ qi ++ qf).
Proof.
  intros Hne Hdst Hsrc [Hnodup Hlive] Hread Hshare.
  assert (Hnodup' := Hnodup). assert (Hlive' := Hlive).
  unfold pointers in Hnodup', Hlive'.
  rewrite addresses_app in Hnodup', Hlive'.
  apply NoDup_app in Hnodup' as (Hnd_i & Hdisj & Hnd_f).
  set (hr := released (pointers dst) (particles m)).
  set (n_i := length (initial_particles_ src)).
  set (n_f := length (final_particles_ src)).
  set (d0 := {| initial_particles_ :=
                  take n_i (initial_particles_ dst)
                  ++ replicate (n_i - length (initial_particles_ dst)) nullptr;
                final_particles_ :=
                  take n_f (final_particles_ dst)
                  ++ replicate (n_f - length (final_particles_ dst)) nullptr;
                Ex_ := Ex_ src |}).
  set (m0 := put_event this d0 (put_particles hr m)).
  assert (Hkeep : forall p, p ∈ pointers src ->
                            pointee m0 p = pointee m p).
  { intros [a|] Hp; [| reflexivity]. simpl. unfold hr.
    apply released_lookup, Hshare, elem_of_addresses, Hp. }
  destruct (copy_both_live this other src d0 m0)
    as (qi & qf & h' & Hrun & Hnd & Hfresh & Hnew & Hold & Hvi & Hvf & Honly).
  { exact Hne. }
  { unfold m0. rewrite put_event_lookup_ne by exact Hne. exact Hsrc. }
  { apply put_event_lookup. }
  { simpl. rewrite length_app, length_take, length_replicate. lia. }
  { simpl. rewrite length_app, length_take, length_replicate. lia. }
  { intros p Hp. rewrite Hkeep by exact Hp. apply Hread, Hp. }
  simpl in Hfresh, Hold, Honly.
  exists qi, qf, h'.
  split; [| split; [exact Hnd | split; [exact Hfresh | split; [exact Hnew |
    split; [| split; [| split; [| exact Honly]]]]]]].
  - unfold copy_assign.
    step_with read_Ex_live. step_with write_Ex_live.
    step_with elements_live.
    erewrite bind_Some
      by (eapply delete_each;
          [exact Hnd_i
          | intros a Ha; rewrite !put_event_particles;
            apply Hlive', elem_of_app; left; exact Ha]).
    step_with elements_live.
    erewrite bind_Some
      by (eapply delete_each;
          [exact Hnd_f
          | intros a Ha; simpl particles;
            rewrite released_lookup by (intros Hin; exact (Hdisj a Hin Ha));
            apply Hlive', elem_of_app; right; exact Ha]).
    step_with size_live. step_with resize_live.
    step_with size_live. step_with resize_live.
    match goal with
    | |- _ ?mem = _ => replace mem with m0
    end.
    + rewrite Hrun. do 2 f_equal.
      apply memory_ext; [reflexivity |]. unfold m0. events_agree.
    + apply memory_ext.
      * simpl. unfold hr, pointers. rewrite released_app. reflexivity.
      * unfold m0. events_agree.
  - intros y Hy. rewrite (Hold y Hy).
    destruct (decide (y ∈ addresses (pointers dst))) as [Hin | Hout].
    + unfold hr in Hy. rewrite released_gone in Hy by exact Hin.
      destruct Hy as [z Hz]. discriminate.
    + apply released_lookup, Hout.
  - rewrite Hvi. apply list_fmap_ext. intros i p Hp. apply Hkeep.
    unfold pointers. apply elem_of_app. left.
    apply (list_elem_of_lookup_2 _ i), Hp.
  - rewrite Hvf. apply list_fmap_ext. intros i p Hp. apply Hkeep.
    unfold pointers. apply elem_of_app. right.
    apply (list_elem_of_lookup_2 _ i), Hp.
Qed.


Lemma bind_None {R S : Type} (c : M R) (k : R -> M S) (m : memory) :
  c m = None -> (c ≫= k) m = None.
Proof. intros Hc. unfold mbind, M_bind. rewrite Hc. reflexivity. Qed.

Lemma copy_particles_empty (v : particle_vector) (this other : address)
  (src : t) (m : memory) :
  events m !! other = Some src ->
  get_vector v src = [] ->
  copy_particles v this other m = Some (tt, m).
Proof.
  intros Hsrc Hempty. unfold copy_particles.
  rewrite (bind_Some _ _ _ _ _ (size_live v other src m Hsrc)).
  rewrite Hempty. reflexivity.
Qed.

(** The copy loop reads the particle behind the first pointer: it is
    undefined when that particle is not live. *)
Lemma copy_particles_dead (v : particle_vector) (this other : address)
  (src : t) (p : Particle_ptr) (ps : list Particle_ptr) (m : memory) :
  events m !! other = Some src ->
  get_vector v src = p :: ps ->
  pointee m p = None ->
  copy_particles v this other m = None.
Proof.
  intros Hsrc Hv Hp. unfold copy_particles.
  rewrite (bind_Some _ _ _ _ _ (size_live v other src m Hsrc)).
  rewrite Hv. simpl. apply bind_None.
  erewrite bind_Some
    by (apply (read_at_live v other 0 p src m Hsrc); rewrite Hv; reflexivity).
  apply bind_None, deref_Particle_dead, Hp.
Qed.

(** X13.  A copy assignment of an event to itself is undefined as soon as one
    of its two vectors is not empty: the particles are deleted before they are
    copied. *)
Theorem copy_assign_self_undefined (this : address) (ev : t) (m : memory) :
  events m !! this = Some ev ->
  owns m ev ->
  pointers ev <> [] ->
  copy_assign this this m = None.
Proof.
  intros Hev [Hnodup Hlive] Hsome.
  assert (Hnodup' := Hnodup). assert (Hlive' := Hlive).
  unfold pointers in Hnodup', Hlive'.
  rewrite addresses_app in Hnodup', Hlive'.
  apply NoDup_app in Hnodup' as (Hnd_i & Hdisj & Hnd_f).
  set (ev1 := set_Ex (Ex_ ev) ev).
  set (m1 := put_particles (released (pointers ev) (particles m))
               (put_event this ev1 m)).
  assert (Hev1 : events m1 !! this = Some ev1) by apply put_event_lookup.
  assert (Hdead : forall p, p ∈ pointers ev -> pointee m1 p = None).
  { intros [a|] Hp; [| reflexivity]. simpl.
    apply released_gone, elem_of_addresses, Hp. }
  unfold copy_assign.
  step_with read_Ex_live. step_with write_Ex_live.
  step_with elements_live.
  erewrite bind_Some
    by (eapply delete_each;
        [exact Hnd_i
        | intros a Ha; rewrite !put_event_particles;
          apply Hlive', elem_of_app; left; exact Ha]).
  step_with elements_live.
  erewrite bind_Some
    by (eapply delete_each;
        [exact Hnd_f
        | intros a Ha; simpl particles;
          rewrite released_lookup by (intros Hin; exact (Hdisj a Hin Ha));
          apply Hlive', elem_of_app; right; exact Ha]).
  match goal with
  | |- _ ?mem = _ => replace mem with m1
  end.
  2:{ apply memory_ext.
      - simpl. unfold pointers. rewrite released_app. reflexivity.
      - unfold m1. events_agree. }
  rewrite (bind_Some _ _ _ _ _ (size_live initial_particles this ev1 m1 Hev1)).
  rewrite (bind_Some _ _ _ _ _
             (resize_same initial_particles this ev1 m1 Hev1)).
  rewrite (bind_Some _ _ _ _ _ (size_live final_particles this ev1 m1 Hev1)).
  rewrite (bind_Some _ _ _ _ _
             (resize_same final_particles this ev1 m1 Hev1)).
  destruct (initial_particles_ ev) as [|p ps] eqn:Hi.
  - rewrite (bind_Some _ _ _ _ _
               (copy_particles_empty initial_particles this this ev1 m1
                  Hev1 Hi)).
    destruct (final_particles_ ev) as [|p ps] eqn:Hf.
    + unfold pointers in Hsome. rewrite Hi, Hf in Hsome. simpl in Hsome.
      congruence.
    + apply (copy_particles_dead final_particles this this ev1 p ps m1 Hev1 Hf).
      apply Hdead. unfold pointers. rewrite Hi, Hf. left.
  - apply bind_None.
    apply (copy_particles_dead initial_particles this this ev1 p ps m1 Hev1 Hi).
    apply Hdead. unfold pointers. rewrite Hi. left.
Qed.

(** *** The partition of the particles among the events *)

Lemma partition_live (live live' : address -> Prop)
  (o : gmap address (list address)) :
  partition live o -> (forall y, live' y <-> live y) -> partition live' o.
Proof.
  intros (Hnd & Hapart & Hlive) Hiff. split; [exact Hnd |].
  split; [exact Hapart |]. intros x. rewrite Hiff. apply Hlive.
Qed.

Lemma partition_new (live : address -> Prop)
  (o : gmap address (list address)) (a : address) :
  partition live o -> o !! a = None -> partition live (<[a := []]> o).
Proof.
  intros (Hnd & Hapart & Hlive) Ha. split; [| split].
  - intros b l Hb. apply lookup_insert_Some in Hb as [[_ <-] | [_ Hb]].
    + apply NoDup_nil_2.
    + exact (Hnd b l Hb).
  - intros b c l1 l2 x Hbc Hb Hc Hx.
    apply lookup_insert_Some in Hb as [[_ <-] | [_ Hb]].
    + apply elem_of_nil in Hx. destruct Hx.
    + apply lookup_insert_Some in Hc as [[_ <-] | [_ Hc]].
      * apply not_elem_of_nil.
      * exact (Hapart b c l1 l2 x Hbc Hb Hc Hx).
  - intros x. rewrite Hlive. split.
    + intros (b & l & Hb & Hx). exists b, l. split; [| exact Hx].
      rewrite lookup_insert_ne by congruence. exact Hb.
    + intros (b & l & Hb & Hx).
      apply lookup_insert_Some in Hb as [[_ <-] | [_ Hb]].
      * apply elem_of_nil in Hx. destruct Hx.
      * exists b, l. tauto.
Qed.

Lemma partition_end (live : address -> Prop)
  (o : gmap address (list address)) (a : address) :
  partition live o -> o !! a = Some [] -> partition live (delete a o).
Proof.
  intros (Hnd & Hapart & Hlive) Ha. split; [| split].
  - intros b l Hb. apply lookup_delete_Some in Hb as [_ Hb].
    exact (Hnd b l Hb).
  - intros b c l1 l2 x Hbc Hb Hc Hx.
    apply lookup_delete_Some in Hb as [_ Hb].
    apply lookup_delete_Some in Hc as [_ Hc].
    exact (Hapart b c l1 l2 x Hbc Hb Hc Hx).
  - intros x. rewrite Hlive. split.
    + intros (b & l & Hb & Hx). exists b, l. split; [| exact Hx].
      apply lookup_delete_Some. split; [| exact Hb].
      intros <-. rewrite Ha in Hb. injection Hb as <-.
      apply elem_of_nil in Hx. destruct Hx.
    + intros (b & l & Hb & Hx). apply lookup_delete_Some in Hb as [_ Hb].
      exists b, l. tauto.
Qed.

(** An owner receives new addresses. *)
Lemma partition_alloc (live live' : address -> Prop)
  (o : gmap address (list address)) (a : address)
  (l l' qs : list address) :
  partition live o ->
  o !! a = Some l ->
  NoDup qs ->
  (forall q, q ∈ qs -> ~ live q) ->
  l' ≡ₚ l ++ qs ->
  (forall y, live' y <-> live y \/ y ∈ qs) ->
  partition live' (<[a := l']> o).
Proof.
  intros (Hnd & Hapart & Hlive) Ha Hqs Hfresh Hperm Hiff.
  assert (Hmine : forall x, x ∈ l -> live x)
    by (intros x Hx; apply Hlive; eauto).
  split; [| split].
  - intros b k Hb. apply lookup_insert_Some in Hb as [[_ <-] | [_ Hb]].
    + rewrite Hperm. apply NoDup_app. split; [exact (Hnd a l Ha) |].
      split; [| exact Hqs]. intros x Hx Hq. exact (Hfresh x Hq (Hmine x Hx)).
    + exact (Hnd b k Hb).
  - intros b c l1 l2 x Hbc Hb Hc Hx.
    apply lookup_insert_Some in Hb as [[<- <-] | [Hab Hb]];
      apply lookup_insert_Some in Hc as [[<- <-] | [Hac Hc]];
      try congruence.
    + rewrite Hperm in Hx. apply elem_of_app in Hx as [Hx | Hx].
      * exact (Hapart a c l l2 x Hbc Ha Hc Hx).
      * intros Hx2. apply (Hfresh x Hx). apply Hlive. eauto.
    + rewrite Hperm. intros Hx2. apply elem_of_app in Hx2 as [Hx2 | Hx2].
      * exact (Hapart b a l1 l x Hbc Hb Ha Hx Hx2).
      * apply (Hfresh x Hx2). apply Hlive. eauto.
    + exact (Hapart b c l1 l2 x Hbc Hb Hc Hx).
  - intros x. rewrite Hiff, Hlive. split.
    + intros [(b & k & Hb & Hx) | Hx].
      * destruct (decide (a = b)) as [<- | Hab].
        -- exists a, l'. rewrite lookup_insert_eq. split; [reflexivity |].
           rewrite Hperm, Ha in *. injection Hb as <-.
           apply elem_of_app. left. exact Hx.
        -- exists b, k. rewrite lookup_insert_ne by exact Hab. tauto.
      * exists a, l'. rewrite lookup_insert_eq. split; [reflexivity |].
        rewrite Hperm. apply elem_of_app. right. exact Hx.
    + intros (b & k & Hb & Hx).
      apply lookup_insert_Some in Hb as [[_ <-] | [_ Hb]].
      * rewrite Hperm in Hx. apply elem_of_app in Hx as [Hx | Hx].
        -- left. exists a, l. tauto.
        -- right. exact Hx.
      * left. exists b, k. tauto.
Qed.

(** An owner gives up all its addresses. *)
Lemma partition_free (live live' : address -> Prop)
  (o : gmap address (list address)) (a : address) (l : list address) :
  partition live o ->
  o !! a = Some l ->
  (forall y, live' y <-> live y /\ y ∉ l) ->
  partition live' (<[a := []]> o).
Proof.
  intros (Hnd & Hapart & Hlive) Ha Hiff. split; [| split].
  - intros b k Hb. apply lookup_insert_Some in Hb as [[_ <-] | [_ Hb]].
    + apply NoDup_nil_2.
    + exact (Hnd b k Hb).
  - intros b c l1 l2 x Hbc Hb Hc Hx.
    apply lookup_insert_Some in Hb as [[_ <-] | [_ Hb]].
    + apply elem_of_nil in Hx. destruct Hx.
    + apply lookup_insert_Some in Hc as [[_ <-] | [_ Hc]].
      * apply not_elem_of_nil.
      * exact (Hapart b c l1 l2 x Hbc Hb Hc Hx).
  - intros x. rewrite Hiff, Hlive. split.
    + intros [(b & k & Hb & Hx) Hout].
      exists b, k. split; [| exact Hx].
      rewrite lookup_insert_ne; [exact Hb |].
      intros <-. rewrite Ha in Hb. injection Hb as <-. contradiction.
    + intros (b & k & Hb & Hx).
      apply lookup_insert_Some in Hb as [[_ <-] | [Hab Hb]].
      * apply elem_of_nil in Hx. destruct Hx.
      * split; [exists b, k; tauto |].
        exact (Hapart b a k l x (not_eq_sym Hab) Hb Ha Hx).
Qed.

(** An owner that holds nothing receives all the addresses of another. *)
Lemma partition_transfer (live : address -> Prop)
  (o : gmap address (list address)) (a b : address) (l : list address) :
  partition live o ->
  a <> b ->
  o !! a = Some [] ->
  o !! b = Some l ->
  partition live (<[b := []]> (<[a := l]> o)).
Proof.
  intros (Hnd & Hapart & Hlive) Hab Ha Hb. split; [| split].
  - intros c k Hc. apply lookup_insert_Some in Hc as [[_ <-] | [_ Hc]].
    + apply NoDup_nil_2.
    + apply lookup_insert_Some in Hc as [[_ <-] | [_ Hc]].
      * exact (Hnd b l Hb).
      * exact (Hnd c k Hc).
  - intros c d l1 l2 x Hcd Hc Hd Hx.
    apply lookup_insert_Some in Hc as [[_ <-] | [Hbc Hc]].
    { apply elem_of_nil in Hx. destruct Hx. }
    apply lookup_insert_Some in Hd as [[_ <-] | [Hbd Hd]].
    { apply not_elem_of_nil. }
    apply lookup_insert_Some in Hc as [[<- <-] | [Hac Hc]];
      apply lookup_insert_Some in Hd as [[<- <-] | [Had Hd]];
      try congruence.
    + exact (Hapart b d l l2 x Hbd Hb Hd Hx).
    + exact (Hapart c b l1 l x (not_eq_sym Hbc) Hc Hb Hx).
    + exact (Hapart c d l1 l2 x Hcd Hc Hd Hx).
  - intros x. rewrite Hlive. split.
    + intros (c & k & Hc & Hx).
      destruct (decide (c = b)) as [-> | Hcb].
      * exists a, l. rewrite lookup_insert_ne, lookup_insert_eq by congruence.
        rewrite Hb in Hc. injection Hc as <-. tauto.
      * destruct (decide (c = a)) as [-> | Hca].
        -- rewrite Ha in Hc. injection Hc as <-.
           apply elem_of_nil in Hx. destruct Hx.
        -- exists c, k. rewrite !lookup_insert_ne by congruence. tauto.
    + intros (c & k & Hc & Hx).
      apply lookup_insert_Some in Hc as [[_ <-] | [Hbc Hc]].
      { apply elem_of_nil in Hx. destruct Hx. }
      apply lookup_insert_Some in Hc as [[_ <-] | [Hac Hc]].
      * exists b, l. tauto.
      * exists c, k. tauto.
Qed.

(** *** The state that the operations keep *)

Lemma ownership_lookup (m : memory) (a : address) (l : list address) :
  ownership m !! a = Some l <->
  exists ev, events m !! a = Some ev /\ l = addresses (pointers ev).
Proof.
  unfold ownership. rewrite lookup_fmap_Some. split.
  - intros (ev & <- & Hev). eauto.
  - intros (ev & Hev & ->). eauto.
Qed.

Lemma ownership_put_event (this : address) (ev : t) (m : memory) :
  ownership (put_event this ev m)
  = <[this := addresses (pointers ev)]> (ownership m).
Proof.
  unfold ownership, put_event. simpl.
  exact (fmap_insert (fun e => addresses (pointers e)) (events m) this ev).
Qed.

Lemma ownership_free (this : address) (m : memory) :
  events m !! this = None -> ownership m !! this = None.
Proof. intros Hfree. unfold ownership. rewrite lookup_fmap, Hfree. reflexivity. Qed.

Lemma ownership_live (this : address) (ev : t) (m : memory) :
  events m !! this = Some ev ->
  ownership m !! this = Some (addresses (pointers ev)).
Proof. intros Hev. apply ownership_lookup. eauto. Qed.

Definition live_in (m : memory) (x : address) : Prop :=
  is_Some (particles m !! x).

Definition no_null (m : memory) : Prop :=
  forall a ev, events m !! a = Some ev -> None ∉ pointers ev.

Lemma well_formed_partition (m : memory) :
  well_formed m <-> partition (live_in m) (ownership m) /\ no_null m.
Proof.
  split.
  - intros [Howns Hnull Hapart Hleak]. split; [| exact Hnull].
    split; [| split].
    + intros a l Ha. apply ownership_lookup in Ha as (ev & Hev & ->).
      apply (Howns a ev Hev).
    + intros a b l1 l2 x Hab Ha Hb.
      apply ownership_lookup in Ha as (ev1 & Hev1 & ->).
      apply ownership_lookup in Hb as (ev2 & Hev2 & ->).
      exact (Hapart a b ev1 ev2 x Hab Hev1 Hev2).
    + intros x. split.
      * intros Hx. destruct (Hleak x Hx) as (a & ev & Hev & Hin).
        exists a, (addresses (pointers ev)).
        split; [apply ownership_live, Hev | exact Hin].
      * intros (a & l & Ha & Hx).
        apply ownership_lookup in Ha as (ev & Hev & ->).
        apply (Howns a ev Hev), Hx.
  - intros [(Hnd & Hapart & Hlive) Hnull]. split.
    + intros a ev Hev. split.
      * exact (Hnd a _ (ownership_live a ev m Hev)).
      * intros x Hx. apply Hlive. exists a, (addresses (pointers ev)).
        split; [apply ownership_live, Hev | exact Hx].
    + exact Hnull.
    + intros a b ev1 ev2 x Hab Hev1 Hev2.
      exact (Hapart a b _ _ x Hab (ownership_live a ev1 m Hev1)
               (ownership_live b ev2 m Hev2)).
    + intros x Hx. apply Hlive in Hx as (a & l & Ha & Hin).
      apply ownership_lookup in Ha as (ev & Hev & ->). eauto.
Qed.

Lemma no_null_put_event (this : address) (ev : t) (m : memory) :
  no_null m -> None ∉ pointers ev -> no_null (put_event this ev m).
Proof.
  intros Hnull Hev a ev' Ha. unfold put_event in Ha. simpl in Ha.
  apply lookup_insert_Some in Ha as [[_ <-] | [_ Ha]].
  - exact Hev.
  - exact (Hnull a ev' Ha).
Qed.

Lemma well_formed_empty : well_formed empty_memory.
Proof.
  split.
  - intros a ev Hev. simpl in Hev. rewrite lookup_empty in Hev. discriminate.
  - intros a ev Hev. simpl in Hev. rewrite lookup_empty in Hev. discriminate.
  - intros a b ev1 ev2 x _ Hev. simpl in Hev.
    rewrite lookup_empty in Hev. discriminate.
  - intros x [y Hy]. simpl in Hy. rewrite lookup_empty in Hy. discriminate.
Qed.

(** Storage that holds no event receives an event without particles. *)
Lemma well_formed_new (this : address) (ev0 : t) (m : memory) :
  well_formed m ->
  events m !! this = None ->
  pointers ev0 = [] ->
  well_formed (put_event this ev0 m).
Proof.
  intros Hwf Hfree Hempty. apply well_formed_partition in Hwf as [Hpart Hnull].
  apply well_formed_partition. split.
  - rewrite ownership_put_event, Hempty.
    apply partition_new; [| apply ownership_free, Hfree].
    apply (partition_live (live_in m)); [exact Hpart | reflexivity].
  - apply no_null_put_event; [exact Hnull |]. rewrite Hempty.
    apply not_elem_of_nil.
Qed.

(** An event without particles ends. *)
Lemma well_formed_end (this : address) (ev0 : t) (m : memory) :
  well_formed m ->
  events m !! this = Some ev0 ->
  pointers ev0 = [] ->
  well_formed {| particles := particles m;
                 events := delete this (events m) |}.
Proof.
  intros Hwf Hev Hempty. apply well_formed_partition in Hwf as [Hpart Hnull].
  apply well_formed_partition. split.
  - unfold ownership. simpl. rewrite fmap_delete.
    apply partition_end.
    + apply (partition_live (live_in m)); [exact Hpart | reflexivity].
    + pose proof (ownership_live this ev0 m Hev) as Hown.
      rewrite Hempty in Hown. exact Hown.
  - intros a ev Ha. simpl in Ha. apply lookup_delete_Some in Ha as [_ Ha].
    exact (Hnull a ev Ha).
Qed.

(** An event receives new particles. *)
Lemma well_formed_alloc (this : address) (ev new : t)
  (h' : gmap address Particle) (qs : list address) (m : memory) :
  well_formed m ->
  events m !! this = Some ev ->
  NoDup qs ->
  (forall q, q ∈ qs -> particles m !! q = None) ->
  addresses (pointers new) ≡ₚ addresses (pointers ev) ++ qs ->
  None ∉ pointers new ->
  (forall y, is_Some (h' !! y) <-> is_Some (particles m !! y) \/ y ∈ qs) ->
  well_formed (put_event this new (put_particles h' m)).
Proof.
  intros Hwf Hev Hnd Hfresh Hperm Hnew Hiff.
  apply well_formed_partition in Hwf as [Hpart Hnull].
  apply well_formed_partition. split.
  - rewrite ownership_put_event.
    apply (partition_alloc (live_in m) _ _ this (addresses (pointers ev)) _ qs);
      try assumption.
    + apply ownership_live, Hev.
    + intros q Hq [z Hz]. rewrite (Hfresh q Hq) in Hz. discriminate.
  - apply no_null_put_event; assumption.
Qed.

(** An event gives up its particles, which are deleted. *)
Lemma well_formed_free (this : address) (ev ev0 : t) (m : memory) :
  well_formed m ->
  events m !! this = Some ev ->
  pointers ev0 = [] ->
  well_formed (put_particles (released (pointers ev) (particles m))
                 (put_event this ev0 m)).
Proof.
  intros Hwf Hev Hempty.
  apply well_formed_partition in Hwf as [Hpart Hnull].
  apply well_formed_partition. split.
  - change (ownership (put_particles (released (pointers ev) (particles m))
                         (put_event this ev0 m)))
      with (ownership (put_event this ev0 m)).
    rewrite ownership_put_event, Hempty.
    apply (partition_free (live_in m) _ _ this (addresses (pointers ev)));
      [exact Hpart | apply ownership_live, Hev |].
    intros y. unfold live_in. simpl.
    destruct (decide (y ∈ addresses (pointers ev))) as [Hin | Hout].
    + rewrite released_gone by exact Hin. split; [| tauto].
      intros [z Hz]. discriminate.
    + rewrite released_lookup by exact Hout. tauto.
  - intros a ev' Ha. simpl in Ha.
    apply lookup_insert_Some in Ha as [[_ <-] | [_ Ha]].
    + rewrite Hempty. apply not_elem_of_nil.
    + exact (Hnull a ev' Ha).
Qed.

(** An event without particles receives the particles of another event,
    which is left without. *)
Lemma well_formed_transfer (this other : address) (ev0 src new left : t)
  (m : memory) :
  well_formed m ->
  this <> other ->
  events m !! this = Some ev0 ->
  pointers ev0 = [] ->
  events m !! other = Some src ->
  pointers new = pointers src ->
  pointers left = [] ->
  well_formed (put_event other left (put_event this new m)).
Proof.
  intros Hwf Hne Hev0 Hempty Hsrc Hnew Hleft.
  apply well_formed_partition in Hwf as [Hpart Hnull].
  apply well_formed_partition. split.
  - rewrite !ownership_put_event, Hnew, Hleft.
    apply (partition_live (live_in m)); [| reflexivity].
    apply partition_transfer; [exact Hpart | exact Hne | |].
    + rewrite (ownership_live this ev0 m Hev0), Hempty. reflexivity.
    + apply ownership_live, Hsrc.
  - apply no_null_put_event; [apply no_null_put_event |].
    + exact Hnull.
    + rewrite Hnew. exact (Hnull other src Hsrc).
    + rewrite Hleft. apply not_elem_of_nil.
Qed.

(** *** Each operation keeps the state *)

Lemma well_formed_readable (a : address) (ev : t) (m : memory) :
  well_formed m -> events m !! a = Some ev -> readable m ev.
Proof.
  intros Hwf Hev p Hp. destruct p as [x |].
  - simpl. apply (wf_owns m Hwf a ev Hev), elem_of_addresses, Hp.
  - exfalso. exact (wf_no_null m Hwf a ev Hev Hp).
Qed.

Lemma released_is_Some (ps : list Particle_ptr) (h : gmap address Particle)
  (y : address) :
  is_Some (released ps h !! y) -> released ps h !! y = h !! y.
Proof.
  intros [z Hz]. destruct (decide (y ∈ addresses ps)) as [Hin | Hout].
  - rewrite released_gone in Hz by exact Hin. discriminate.
  - apply released_lookup, Hout.
Qed.

Lemma no_null_Some (qi qf : list address) :
  None ∉ (Some <$> qi) ++ (Some <$> qf).
Proof.
  intros Hin. apply elem_of_app in Hin as [Hin | Hin];
    apply list_elem_of_fmap in Hin as (q & Hq & _); discriminate.
Qed.

(** An event without particles receives new particles in its two vectors. *)
Lemma well_formed_fill (this : address) (ev0 : t) (qi qf : list address)
  (Ex : double) (h' : gmap address Particle) (m : memory) :
  well_formed m ->
  events m !! this = Some ev0 ->
  pointers ev0 = [] ->
  NoDup (qi ++ qf) ->
  (forall q, q ∈ qi ++ qf -> particles m !! q = None) ->
  (forall y, is_Some (h' !! y)
             <-> is_Some (particles m !! y) \/ y ∈ qi ++ qf) ->
  well_formed (put_event this
                 {| initial_particles_ := Some <$> qi;
                    final_particles_ := Some <$> qf; Ex_ := Ex |}
                 (put_particles h' m)).
Proof.
  intros Hwf Hev Hempty Hnd Hfresh Hiff.
  apply (well_formed_alloc this ev0 _ h' (qi ++ qf)); try assumption.
  - unfold pointers at 1. simpl. rewrite addresses_app, !addresses_Some.
    rewrite Hempty. reflexivity.
  - apply no_null_Some.
Qed.

Lemma ctor_2_to_2_alloc (this : address) (a b c d : Particle) (Ex : double)
  (m : memory) :
  events m !! this = None ->
  exists pa pb pc pd : address,
    ctor_2_to_2 this a b c d Ex m
    = Some (tt, put_event this
                  {| initial_particles_ := Some <$> [pa; pb];
                     final_particles_ := Some <$> [pc; pd]; Ex_ := Ex |}
                  (put_particles
                     (<[pd := d]> (<[pc := c]> (<[pb := b]>
                        (<[pa := a]> (particles m))))) m)) /\
    NoDup ([pa; pb] ++ [pc; pd]) /\
    (forall q, q ∈ [pa; pb] ++ [pc; pd] -> particles m !! q = None).
Proof.
  intros Hfree. unfold ctor_2_to_2.
  destruct (new_Particle_fresh a m) as (pa & Hrun_a & Ha).
  rewrite (bind_Some _ _ _ _ _ Hrun_a).
  destruct (new_Particle_fresh b (put_particles (<[pa := a]> (particles m)) m))
    as (pb & Hrun_b & Hb).
  rewrite (bind_Some _ _ _ _ _ Hrun_b).
  destruct (new_Particle_fresh c
              (put_particles (<[pb := b]> (<[pa := a]> (particles m))) m))
    as (pc & Hrun_c & Hc).
  rewrite put_particles_twice in Hrun_c.
  rewrite (bind_Some _ _ _ _ _ Hrun_c).
  destruct (new_Particle_fresh d
              (put_particles
                 (<[pc := c]> (<[pb := b]> (<[pa := a]> (particles m)))) m))
    as (pd & Hrun_d & Hd).
  rewrite !put_particles_twice in Hrun_d.
  rewrite (bind_Some _ _ _ _ _ Hrun_d).
  simpl in Hb, Hc, Hd.
  apply lookup_insert_None in Hb as [Hb Hba].
  apply lookup_insert_None in Hc as [Hc Hcb].
  apply lookup_insert_None in Hc as [Hc Hca].
  apply lookup_insert_None in Hd as [Hd Hdc].
  apply lookup_insert_None in Hd as [Hd Hdb].
  apply lookup_insert_None in Hd as [Hd Hda].
  exists pa, pb, pc, pd.
  split; [apply construct_free; exact Hfree |]. split.
  - simpl. repeat (apply NoDup_cons; split);
      rewrite ?elem_of_cons, ?elem_of_nil; try tauto; try apply NoDup_nil_2;
      intros Hin; repeat destruct Hin as [Hin | Hin]; congruence.
  - intros q Hq. simpl in Hq. rewrite !elem_of_cons, elem_of_nil in Hq.
    destruct Hq as [-> | [-> | [-> | [-> | []]]]]; assumption.
Qed.

Lemma ctor_2_to_2_well_formed (this : address) (a b c d : Particle)
  (Ex : double) (m : memory) :
  well_formed m ->
  events m !! this = None ->
  exists m', ctor_2_to_2 this a b c d Ex m = Some (tt, m') /\ well_formed m'.
Proof.
  intros Hwf Hfree.
  destruct (ctor_2_to_2_alloc this a b c d Ex m Hfree)
    as (pa & pb & pc & pd & Hrun & Hnd & Hfresh).
  eexists. split; [exact Hrun |].
  rewrite <- (put_event_twice this moved_from).
  apply (well_formed_fill this moved_from [pa; pb] [pc; pd] Ex _
           (put_event this moved_from m)).
  - apply well_formed_new; [exact Hwf | exact Hfree | reflexivity].
  - apply put_event_lookup.
  - reflexivity.
  - exact Hnd.
  - exact Hfresh.
  - intros y. simpl. rewrite !lookup_insert_is_Some', !elem_of_cons, elem_of_nil.
    split; intros H; repeat destruct H as [H | H]; subst;
      try contradiction; auto 10.
Qed.

Lemma copy_ctor_well_formed (this other : address) (m : memory) :
  well_formed m ->
  events m !! this = None ->
  is_Some (events m !! other) ->
  exists m', copy_ctor this other m = Some (tt, m') /\ well_formed m'.
Proof.
  intros Hwf Hfree [src Hsrc].
  destruct (copy_ctor_live this other src m Hsrc
              (well_formed_readable other src m Hwf Hsrc) Hfree)
    as (qi & qf & h' & Hrun & Hnd & Hfresh & Hnew & Hold & _ & _ & Hfrom).
  eexists. split; [exact Hrun |].
  rewrite <- (put_event_twice this moved_from).
  apply (well_formed_fill this moved_from qi qf (Ex_ src) h'
           (put_event this moved_from m)).
  - apply well_formed_new; [exact Hwf | exact Hfree | reflexivity].
  - apply put_event_lookup.
  - reflexivity.
  - exact Hnd.
  - exact Hfresh.
  - intros y. simpl. split; [apply Hfrom |].
    intros [Hy | Hy]; [rewrite (Hold y Hy); exact Hy | apply Hnew, Hy].
Qed.

Lemma move_ctor_well_formed (this other : address) (m : memory) :
  well_formed m ->
  events m !! this = None ->
  is_Some (events m !! other) ->
  exists m', move_ctor this other m = Some (tt, m') /\ well_formed m'.
Proof.
  intros Hwf Hfree [src Hsrc].
  assert (Hne : this <> other) by congruence.
  eexists. split; [apply (move_ctor_live this other src m Hsrc Hfree) |].
  rewrite <- (put_event_twice this moved_from src m).
  apply (well_formed_transfer this other moved_from src src moved_from).
  - apply well_formed_new; [exact Hwf | exact Hfree | reflexivity].
  - exact Hne.
  - apply put_event_lookup.
  - reflexivity.
  - rewrite put_event_lookup_ne by congruence. exact Hsrc.
  - reflexivity.
  - reflexivity.
Qed.

Lemma move_assign_well_formed (this other : address) (m : memory) :
  well_formed m ->
  is_Some (events m !! this) ->
  is_Some (events m !! other) ->
  exists m', move_assign this other m = Some (tt, m') /\ well_formed m'.
Proof.
  intros Hwf [dst Hdst] [src Hsrc].
  destruct (decide (this = other)) as [<- | Hne].
  - eexists. split.
    + apply (move_assign_self_live this dst m Hdst (wf_owns m Hwf this dst Hdst)).
    + apply (well_formed_free this dst moved_from m Hwf Hdst). reflexivity.
  - eexists. split.
    + apply (move_assign_live this other src dst m Hne Hdst Hsrc
               (wf_owns m Hwf this dst Hdst)).
    + assert (Heq :
        put_particles (released (pointers dst) (particles m))
          (put_event other moved_from (put_event this src m))
        = put_event other moved_from
            (put_event this src
               (put_particles (released (pointers dst) (particles m))
                  (put_event this moved_from m)))).
      { unfold put_event, put_particles. simpl.
        rewrite insert_insert_eq. reflexivity. }
      rewrite Heq.
      apply (well_formed_transfer this other moved_from src src moved_from).
      * apply (well_formed_free this dst moved_from m Hwf Hdst). reflexivity.
      * exact Hne.
      * simpl. apply lookup_insert_eq.
      * reflexivity.
      * simpl. rewrite lookup_insert_ne by congruence. exact Hsrc.
      * reflexivity.
      * reflexivity.
Qed.

Lemma copy_assign_well_formed (this other : address) (m : memory) :
  well_formed m ->
  this <> other ->
  is_Some (events m !! this) ->
  is_Some (events m !! other) ->
  exists m', copy_assign this other m = Some (tt, m') /\ well_formed m'.
Proof.
  intros Hwf Hne [dst Hdst] [src Hsrc].
  assert (Hapart : forall a, a ∈ addresses (pointers src) ->
                             a ∉ addresses (pointers dst)).
  { intros a. apply (wf_apart m Hwf other this src dst a); congruence. }
  destruct (copy_assign_live this other src dst m Hne Hdst Hsrc
              (wf_owns m Hwf this dst Hdst)
              (well_formed_readable other src m Hwf Hsrc) Hapart)
    as (qi & qf & h' & Hrun & Hnd & Hfresh & Hnew & Hold & _ & _ & Hfrom).
  eexists. split; [exact Hrun |].
  assert (Heq : forall new,
    put_event this new (put_particles h' m)
    = put_event this new
        (put_particles h'
           (put_particles (released (pointers dst) (particles m))
              (put_event this moved_from m)))).
  { intros new. unfold put_event, put_particles. simpl.
    rewrite insert_insert_eq. reflexivity. }
  rewrite Heq.
  apply (well_formed_fill this moved_from qi qf (Ex_ src) h').
  - apply (well_formed_free this dst moved_from m Hwf Hdst). reflexivity.
  - simpl. apply lookup_insert_eq.
  - reflexivity.
  - exact Hnd.
  - exact Hfresh.
  - intros y. simpl. split; [apply Hfrom |].
    intros [Hy | Hy]; [| apply Hnew, Hy].
    rewrite (Hold y Hy). rewrite <- (released_is_Some _ _ _ Hy). exact Hy.
Qed.

Lemma dtor_well_formed (this : address) (m : memory) :
  well_formed m ->
  is_Some (events m !! this) ->
  exists m', dtor this m = Some (tt, m') /\ well_formed m'.
Proof.
  intros Hwf [ev Hev].
  eexists. split; [apply (dtor_live this ev m Hev (wf_owns m Hwf this ev Hev)) |].
  assert (Heq :
    {| particles := released (pointers ev) (particles m);
       events := delete this (events m) |}
    = {| particles :=
           particles (put_particles (released (pointers ev) (particles m))
                        (put_event this moved_from m));
         events :=
           delete this
             (events (put_particles (released (pointers ev) (particles m))
                        (put_event this moved_from m))) |}).
  { simpl. rewrite delete_insert_eq. reflexivity. }
  rewrite Heq.
  apply (well_formed_end this moved_from).
  - apply (well_formed_free this ev moved_from m Hwf Hev). reflexivity.
  - simpl. apply lookup_insert_eq.
  - reflexivity.
Qed.

Lemma add_particle_well_formed (v : particle_vector) (this : address)
  (p : Particle) (m : memory) :
  well_formed m ->
  is_Some (events m !! this) ->
  exists m', add_particle v this p m = Some (tt, m') /\ well_formed m'.
Proof.
  intros Hwf [ev Hev].
  destruct (add_particle_live v this p ev m Hev) as (q & Hq & Hrun).
  eexists. split; [exact Hrun |].
  apply (well_formed_alloc this ev _ _ [q]).
  - exact Hwf.
  - exact Hev.
  - apply NoDup_singleton.
  - intros q' Hq'. apply list_elem_of_singleton in Hq' as ->. exact Hq.
  - destruct v; unfold pointers; simpl; rewrite !addresses_app; simpl.
    + rewrite <- !app_assoc. apply Permutation_app_head.
      apply (Permutation_app_comm [q]).
    + rewrite <- !app_assoc. reflexivity.
  - pose proof (wf_no_null m Hwf this ev Hev) as Hnull.
    unfold pointers in Hnull. rewrite elem_of_app in Hnull.
    destruct v; unfold pointers; simpl; rewrite !elem_of_app;
      rewrite list_elem_of_singleton;
      [intros [[Hin | Hin] | Hin] | intros [Hin | [Hin | Hin]]];
      try discriminate; tauto.
  - intros y. rewrite lookup_insert_is_Some', list_elem_of_singleton.
    split; intros [H | H]; subst; auto.
Qed.

Lemma run_well_formed (op : operation) (m : memory) :
  well_formed m ->
  applicable op m ->
  exists m', run op m = Some (tt, m') /\ well_formed m'.
Proof.
  intros Hwf Happ.
  destruct op as [this E | this a b c d E | this other | this other
                 | this other | this other | this | this p | this p];
    simpl in Happ; simpl run.
  - apply (ctor_2_to_2_well_formed this Particle_default Particle_default
             Particle_default Particle_default E m Hwf Happ).
  - apply ctor_2_to_2_well_formed; assumption.
  - destruct Happ. apply copy_ctor_well_formed; assumption.
  - destruct Happ. apply move_ctor_well_formed; assumption.
  - destruct Happ as (? & ? & ?). apply copy_assign_well_formed; assumption.
  - destruct Happ. apply move_assign_well_formed; assumption.
  - apply dtor_well_formed; assumption.
  - apply add_particle_well_formed; assumption.
  - apply add_particle_well_formed; assumption.
Qed.

(** X14.  Every event constructor, assignment, destructor and particle
    insertion is defined when it is called on a memory in which the events own
    their particles apart from each other, and leaves such a memory. A list of
    such calls therefore never deletes a particle twice and never reads a
    deleted one, and once the last event is destroyed no particle is left
    allocated. *)
Theorem operations_keep_ownership (ops : list operation) :
  forall m : memory,
    well_formed m ->
    applicable_all ops m ->
    exists m' : memory,
      run_all ops m = Some (tt, m') /\
      well_formed m' /\
      (events m' = ∅ -> particles m' = ∅).
Proof.
  induction ops as [| op ops IH]; intros m Hwf Happ.
  - exists m. split; [reflexivity |]. split; [exact Hwf |].
    intros Hnone. apply map_eq. intros x. rewrite lookup_empty.
    destruct (particles m !! x) as [p |] eqn:Hx; [| reflexivity].
    destruct (wf_no_leak m Hwf x (ex_intro _ p Hx)) as (a & ev & Hev & _).
    rewrite Hnone, lookup_empty in Hev. discriminate.
  - destruct Happ as [Hop Hrest].
    destruct (run_well_formed op m Hwf Hop) as (m1 & Hrun & Hwf1).
    destruct (IH m1 Hwf1 (Hrest m1 Hrun)) as (m' & Hruns & Hwf' & Hleak).
    exists m'. split; [| split; assumption].
    simpl. rewrite (bind_Some _ _ _ _ _ Hrun). exact Hruns.
Qed.

(** *** The two sample events *)

Lemma first_event_live :
  events (memory_after two_events) !! 1%positive = Some first_event.
Proof. vm_compute. reflexivity. Qed.


Lemma third_event_free :
  events (memory_after two_events) !! 3%positive = None.
Proof. vm_compute. reflexivity. Qed.

Lemma first_event_owned : owns (memory_after two_events) first_event.
Proof.
  split.
  - compute_done.
  - intros a Ha. vm_compute in Ha.
    repeat (apply elem_of_cons in Ha as [-> | Ha];
            [vm_compute; eexists; reflexivity |]).
    apply elem_of_nil in Ha. destruct Ha.
Qed.


Lemma first_event_readable : readable (memory_after two_events) first_event.
Proof.
  intros p Hp. unfold pointers, first_event in Hp. simpl in Hp.
  repeat (apply elem_of_cons in Hp as [-> | Hp];
          [vm_compute; eexists; reflexivity |]).
  apply elem_of_nil in Hp. destruct Hp.
Qed.


Lemma moved_event_live :
  events two_events_moved !! 1%positive = Some moved_from.
Proof. vm_compute. reflexivity. Qed.

(** X15.  A move assignment of an event to itself, which the operator does not
    test for, deletes every particle of the event and leaves it without
    particles and with [Ex_] equal to zero; the other events and the particles
    of the other events are left as they were. *)
Theorem self_move_assign_deletes_the_particles (this : address) (ev : t)
  (m : memory) :
  events m !! this = Some ev ->
  owns m ev ->
  exists m' : memory,
    move_assign this this m = Some (tt, m') /\
    events m' !! this = Some moved_from /\
    (forall x, x ∈ addresses (pointers ev) -> particles m' !! x = None) /\
    (forall x, x ∉ addresses (pointers ev) ->
               particles m' !! x = particles m !! x) /\
    (forall o, o <> this -> events m' !! o = events m !! o).
Proof.
  intros Hev Howns. eexists.
  split; [apply (move_assign_self_live this ev m Hev Howns) |].
  split; [simpl; apply lookup_insert_eq |].
  split; [intros x Hx; simpl; apply released_gone, Hx |].
  split; [intros x Hx; simpl; apply released_lookup, Hx |].
  intros o Ho. simpl. apply lookup_insert_ne. congruence.
Qed.

(** *** The properties at the sample events *)

Lemma dtor_releases_own_particles_witness :
  exists m' : memory,
    dtor 1%positive (memory_after two_events) = Some (tt, m') /\
    events m' !! 1%positive = None /\
    (forall o, o <> 1%positive ->
               events m' !! o = events (memory_after two_events) !! o) /\
    (forall x, x ∈ addresses (pointers first_event) ->
               particles m' !! x = None) /\
    (forall x, x ∉ addresses (pointers first_event) ->
               particles m' !! x
               = particles (memory_after two_events) !! x).
Proof.
  exact (dtor_releases_own_particles 1%positive first_event
           (memory_after two_events) first_event_live first_event_owned).
Defined.

Lemma add_particle_appends_witness :
  exists (m' : memory) (ev' : t),
    add_particle final_particles 1%positive a_photon
      (memory_after two_events) = Some (tt, m') /\
    events m' !! 1%positive = Some ev' /\
    Ex_ ev' = Ex_ first_event /\
    pointee m' <$> get_vector final_particles ev'
    = (pointee (memory_after two_events)
         <$> get_vector final_particles first_event) ++ [Some a_photon] /\
    (forall w, w <> final_particles ->
       pointee m' <$> get_vector w ev'
       = pointee (memory_after two_events) <$> get_vector w first_event) /\
    (forall o, o <> 1%positive ->
               events m' !! o = events (memory_after two_events) !! o) /\
    (forall x, is_Some (particles (memory_after two_events) !! x) ->
               particles m' !! x
               = particles (memory_after two_events) !! x) /\
    exists q : address,
      get_vector final_particles ev'
      = get_vector final_particles first_event ++ [Some q] /\
      particles (memory_after two_events) !! q = None /\
      (forall y, is_Some (particles m' !! y) <->
                 is_Some (particles (memory_after two_events) !! y)
                 \/ y = q).
Proof.
  exact (add_particle_appends final_particles 1%positive a_photon first_event
           (memory_after two_events) first_event_live first_event_readable).
Defined.

Lemma accessors_return_constructor_arguments_witness :
  exists m' : memory,
    ctor_2_to_2 3%positive a_photon a_residue a_photon a_residue 1%float
      (memory_after two_events) = Some (tt, m') /\
    projectile 3%positive m' = Some (returned a_photon, m') /\
    target 3%positive m' = Some (returned a_residue, m') /\
    ejectile 3%positive m' = Some (returned a_photon, m') /\
    residue 3%positive m' = Some (returned a_residue, m').
Proof.
  exact (accessors_return_constructor_arguments 3%positive
           a_photon a_residue a_photon a_residue 1%float
           (memory_after two_events) third_event_free).
Defined.

Lemma accessors_after_move_witness :
  exists m' : memory,
    move move_assignment 2%positive 1%positive (memory_after two_events)
    = Some (tt, m') /\
    (forall v i,
       particle_at v 1%positive i m' = Some (thrown out_of_range, m')) /\
    (forall v i,
       fst <$> particle_at v 2%positive i m'
       = fst <$> particle_at v 1%positive i (memory_after two_events)).
Proof.
  exact (accessors_after_move move_assignment 2%positive 1%positive
           (memory_after two_events) two_events_movable).
Defined.

Lemma move_there_and_back_witness :
  exists m' m'' : memory,
    move move_construction 3%positive 1%positive (memory_after two_events)
    = Some (tt, m') /\
    move_assign 1%positive 3%positive m' = Some (tt, m'') /\
    events m'' !! 1%positive
    = events (memory_after two_events) !! 1%positive /\
    events m'' !! 3%positive = Some moved_from /\
    particle_values m'' 1%positive
    = particle_values (memory_after two_events) 1%positive.
Proof.
  exact (move_there_and_back move_construction 3%positive 1%positive
           (memory_after two_events)
           (conj (ex_intro _ first_event first_event_live)
              third_event_free)).
Defined.

Lemma output_without_initial_particles_witness :
  print 1%positive two_events_moved
  = Some ({| written := []; raised := None |}, two_events_moved) /\
  write_hepevt 5 1%positive two_events_moved
  = Some ({| written :=
               [put_setprecision 16; put_scientific;
                put_size 5; put_char space;
                put_size (List.length (final_particles_ moved_from) + 1);
                put_char newline];
             raised := Some out_of_range |}, two_events_moved).
Proof.
  exact (output_without_initial_particles 5 1%positive moved_from
           two_events_moved moved_event_live eq_refl).
Defined.

Lemma write_hepevt_lines_witness :
  exists (out : insertion) (x : Particle) (ys : list Particle),
    write_hepevt 5 1%positive (memory_after two_events)
    = Some (out, memory_after two_events) /\
    raised out = None /\
    projectile 1%positive (memory_after two_events)
    = Some (returned x, memory_after two_events) /\
    pointee (memory_after two_events) <$> final_particles_ first_event
    = Some <$> ys /\
    written out
    = [put_setprecision 16; put_scientific;
       put_size 5; put_char space;
       put_size (List.length (final_particles_ first_event) + 1);
       put_char newline]
      ++ dump_hepevt_particle x false
      ++ List.concat (map (fun y => dump_hepevt_particle y true) ys) /\
    written out !! 4%nat
    = Some (put_size (List.length (final_particles_ first_event) + 1)) /\
    lines (written out)
    = S (List.length (final_particles_ first_event) + 1) /\
    records (status_text false) (written out) = 1%nat /\
    records (status_text true) (written out)
    = List.length (final_particles_ first_event).
Proof.
  refine (write_hepevt_lines 5 1%positive first_event
            (memory_after two_events) first_event_live first_event_readable
            _).
  discriminate.
Defined.

Lemma print_lines_witness :
  exists (out : insertion) (x : Particle) (ys : list Particle),
    print 1%positive (memory_after two_events)
    = Some (out, memory_after two_events) /\
    raised out = None /\
    projectile 1%positive (memory_after two_events)
    = Some (returned x, memory_after two_events) /\
    pointee (memory_after two_events) <$> final_particles_ first_event
    = Some <$> ys /\
    written out
    = [put_Particle x; put_char newline]
      ++ List.concat (map (fun y => [put_Particle y; put_char newline]) ys) /\
    written out !! 0%nat = Some (put_Particle x) /\
    lines (written out) = S (List.length (final_particles_ first_event)).
Proof.
  refine (print_lines 1%positive first_event (memory_after two_events)
            first_event_live first_event_readable _).
  discriminate.
Defined.

Lemma copy_ctor_deep_copy_witness :
  exists (m' : memory) (new : t),
    copy_ctor 3%positive 1%positive (memory_after two_events)
    = Some (tt, m') /\
    events m' !! 3%positive = Some new /\
    Ex_ new = Ex_ first_event /\
    particle_values m' 3%positive
    = particle_values (memory_after two_events) 1%positive /\
    events m' !! 1%positive = Some first_event /\
    particle_values m' 1%positive
    = particle_values (memory_after two_events) 1%positive /\
    owns m' new /\
    (forall x, x ∈ addresses (pointers new) ->
               x ∉ addresses (pointers first_event)) /\
    (forall y, is_Some (particles (memory_after two_events) !! y) ->
               particles m' !! y
               = particles (memory_after two_events) !! y) /\
    (forall x, x ∈ addresses (pointers new) ->
               particles (memory_after two_events) !! x = None) /\
    (forall y, is_Some (particles m' !! y) <->
               is_Some (particles (memory_after two_events) !! y)
               \/ y ∈ addresses (pointers new)).
Proof.
  exact (copy_ctor_deep_copy 3%positive 1%positive first_event
           (memory_after two_events) first_event_live first_event_readable
           third_event_free).
Defined.

Lemma copy_then_destroy_restores_witness :
  exists m' : memory,
    copy_ctor 3%positive 1%positive (memory_after two_events)
    = Some (tt, m') /\
    dtor 3%positive m' = Some (tt, memory_after two_events).
Proof.
  exact (copy_then_destroy_restores 3%positive 1%positive first_event
           (memory_after two_events) first_event_live first_event_readable
           third_event_free).
Defined.


Lemma copy_assign_self_undefined_witness :
  copy_assign 1%positive 1%positive (memory_after two_events) = None.
Proof.
  refine (copy_assign_self_undefined 1%positive first_event
            (memory_after two_events) first_event_live first_event_owned _).
  discriminate.
Defined.

Lemma self_move_assign_deletes_the_particles_witness :
  exists m' : memory,
    move_assign 1%positive 1%positive (memory_after two_events)
    = Some (tt, m') /\
    events m' !! 1%positive = Some moved_from /\
    (forall x, x ∈ addresses (pointers first_event) ->
               particles m' !! x = None) /\
    (forall x, x ∉ addresses (pointers first_event) ->
               particles m' !! x
               = particles (memory_after two_events) !! x) /\
    (forall o, o <> 1%positive ->
               events m' !! o = events (memory_after two_events) !! o).
Proof.
  exact (self_move_assign_deletes_the_particles 1%positive first_event
           (memory_after two_events) first_event_live first_event_owned).
Defined.

Lemma a_program_applicable : applicable_all a_program empty_memory.
Proof.
  unfold a_program.
  repeat (split;
          [ vm_compute; repeat split; try discriminate;
            try (eexists; reflexivity); try reflexivity
          | intros m' Hm'; vm_compute in Hm'; injection Hm' as <- ]).
  exact I.
Qed.

Lemma operations_keep_ownership_witness :
  exists m' : memory,
    run_all a_program empty_memory = Some (tt, m') /\
    well_formed m' /\
    (events m' = ∅ -> particles m' = ∅).
Proof.
  exact (operations_keep_ownership a_program empty_memory well_formed_empty
           a_program_applicable).
Defined.

(** *** Assignment through the reference that an accessor returns *)

Lemma no_null_addresses (ps : list Particle_ptr) :
  None ∉ ps -> Some <$> addresses ps = ps.
Proof.
  induction ps as [| [a |] ps IH]; intros Hnull.
  - reflexivity.
  - rewrite addresses_cons_Some, fmap_cons, IH; [reflexivity |].
    intros Hin. apply Hnull. right. exact Hin.
  - exfalso. apply Hnull. left.
Qed.

Lemma readable_no_null (m : memory) (ev : t) :
  readable m ev -> None ∉ pointers ev.
Proof. intros Hread Hin. destruct (Hread None Hin) as [x Hx]. discriminate. Qed.

Lemma owned_pointers_NoDup (m : memory) (ev : t) :
  owns m ev -> readable m ev -> NoDup (pointers ev).
Proof.
  intros [Hnd _] Hread.
  rewrite <- (no_null_addresses (pointers ev) (readable_no_null m ev Hread)).
  apply (NoDup_fmap_2 Some), Hnd.
Qed.

(** The place of [v[i]] among the pointers of the event. *)
Lemma pointers_lookup (v : particle_vector) (ev : t) (i : nat)
  (p : Particle_ptr) :
  get_vector v ev !! i = Some p ->
  pointers ev
    !! (match v with
        | initial_particles => i
        | final_particles => (List.length (initial_particles_ ev) + i)%nat
        end) = Some p.
Proof.
  intros Hp. unfold pointers. destruct v; simpl in Hp.
  - apply lookup_app_l_Some, Hp.
  - rewrite lookup_app_r by lia.
    replace (List.length (initial_particles_ ev) + i
             - List.length (initial_particles_ ev))%nat with i by lia.
    exact Hp.
Qed.

Lemma owned_pointers_apart (m : memory) (ev : t) (v w : particle_vector)
  (i j : nat) (p : Particle_ptr) :
  owns m ev -> readable m ev ->
  get_vector v ev !! i = Some p ->
  get_vector w ev !! j = Some p ->
  (w, j) = (v, i).
Proof.
  intros Howns Hread Hv Hw.
  pose proof (owned_pointers_NoDup m ev Howns Hread) as Hnd.
  pose proof (NoDup_lookup _ _ _ _ Hnd (pointers_lookup v ev i p Hv)
                (pointers_lookup w ev j p Hw)) as Hsame.
  pose proof (lookup_lt_Some _ _ _ Hv) as Hi.
  pose proof (lookup_lt_Some _ _ _ Hw) as Hj.
  destruct v, w; simpl in Hi, Hj; f_equal; lia.
Qed.

(** X16.  An assignment through the reference that an accessor returns, as in
    [event.residue() = x], throws [std::out_of_range] and changes nothing when
    the vector has no such element. For an event that owns its particles it
    otherwise gives the value [x] to that particle only: the accessor then
    reads [x], every other element of the two vectors reads as before, and so
    does every particle of another event. *)
Theorem assignment_through_accessor (v : particle_vector) (this : address)
  (i : nat) (x : Particle) (ev : t) (m : memory) :
  events m !! this = Some ev ->
  owns m ev ->
  readable m ev ->
  ((List.length (get_vector v ev) <= i)%nat ->
   assign_particle_at v this i x m = Some (thrown out_of_range, m)) /\
  ((i < List.length (get_vector v ev))%nat ->
   exists m' : memory,
     assign_particle_at v this i x m = Some (returned tt, m') /\
     events m' = events m /\
     particle_at v this i m' = Some (returned x, m') /\
     (forall w j, (w, j) <> (v, i) ->
        fst <$> particle_at w this j m' = fst <$> particle_at w this j m) /\
     (forall y, y ∉ addresses (pointers ev) ->
        particles m' !! y = particles m !! y)).
Proof.
  intros Hev Howns Hread. split.
  - intros Hi. unfold assign_particle_at.
    rewrite (bind_Some _ _ _ _ _ (at_live v this i ev m Hev)).
    rewrite (lookup_ge_None_2 _ _ Hi). reflexivity.
  - intros Hi. destruct (lookup_lt_is_Some_2 _ _ Hi) as [p Hp].
    assert (Hin : p ∈ pointers ev).
    { apply (list_elem_of_lookup_2 _ _ _ (pointers_lookup v ev i p Hp)). }
    destruct (Hread p Hin) as [x0 Hx0].
    destruct p as [a |]; [| discriminate]. simpl in Hx0.
    exists (put_particles (<[a := x]> (particles m)) m).
    assert (Hev' : events (put_particles (<[a := x]> (particles m)) m)
                     !! this = Some ev) by exact Hev.
    split; [| split; [reflexivity | split; [| split]]].
    + unfold assign_particle_at.
      rewrite (bind_Some _ _ _ _ _ (at_live v this i ev m Hev)).
      rewrite Hp. cbv beta iota.
      erewrite bind_Some
        by (unfold assign_Particle; rewrite Hx0; reflexivity).
      reflexivity.
    + rewrite (particle_at_live v this i ev _ Hev').
      rewrite list_lookup_fmap, Hp. simpl. rewrite lookup_insert_eq.
      reflexivity.
    + intros w j Hne.
      rewrite (particle_at_live w this j ev _ Hev').
      rewrite (particle_at_live w this j ev m Hev).
      rewrite !list_lookup_fmap.
      destruct (get_vector w ev !! j) as [[b |] |] eqn:Hq; simpl;
        [| reflexivity | reflexivity].
      rewrite lookup_insert_ne.
      * destruct (particles m !! b); reflexivity.
      * intros ->. apply Hne.
        exact (owned_pointers_apart m ev v w i j (Some b) Howns Hread Hp Hq).
    + intros y Hy. simpl. apply lookup_insert_ne. intros ->.
      apply Hy, elem_of_addresses, Hin.
Qed.

Lemma assignment_through_accessor_witness :
  ((List.length (get_vector final_particles first_event) <= RESIDUE_INDEX)%nat
   -> assign_particle_at final_particles 1%positive RESIDUE_INDEX a_photon
        (memory_after two_events)
      = Some (thrown out_of_range, memory_after two_events)) /\
  ((RESIDUE_INDEX < List.length (get_vector final_particles first_event))%nat
   -> exists m' : memory,
     assign_particle_at final_particles 1%positive RESIDUE_INDEX a_photon
       (memory_after two_events) = Some (returned tt, m') /\
     events m' = events (memory_after two_events) /\
     particle_at final_particles 1%positive RESIDUE_INDEX m'
     = Some (returned a_photon, m') /\
     (forall w j, (w, j) <> (final_particles, RESIDUE_INDEX) ->
        fst <$> particle_at w 1%positive j m'
        = fst <$> particle_at w 1%positive j (memory_after two_events)) /\
     (forall y, y ∉ addresses (pointers first_event) ->
        particles m' !! y = particles (memory_after two_events) !! y)).
Proof.
  exact (assignment_through_accessor final_particles 1%positive RESIDUE_INDEX
           a_photon first_event (memory_after two_events) first_event_live
           first_event_owned first_event_readable).
Defined.

End event_members.
